(** * Huffman coding: a shallow embedding of [huffman_file.py]

    The development follows the Python module function by function.
    Python [str] values (texts, codes, bit strings) are lists of
    characters, [bytes] are lists of [Byte.byte], the two dictionaries of
    a [HuffmanCoding] instance are finite maps, and the [Counter] built
    from the text is an association list in first-occurrence order (the
    order in which [items()] yields its entries, which decides the
    insertion order into the heap).  Exceptions are explicit. *)

From Stdlib Require Import Strings.Ascii Strings.String Strings.Byte ZifyNat.
From Stdlib Require Import DecimalString.
From stdpp Require Import gmap strings list fin_maps.

Set Default Proof Using "Type".
Open Scope nat_scope.

Ltac Zify.zify_post_hook ::= Z.div_mod_to_equations.

(** ** Python values *)

(** A Python [str]: texts, codes and bit strings alike. *)
Abbreviation str := (list ascii).

(** A string literal of the source as a [str]. *)
Definition py (s : string) : str := list_ascii_of_string s.

(** The exceptions the module raises (each with its message), and
    [IndexError], which indexing a list out of range would raise. *)
Inductive exception : Type :=
| ValueError (msg : string)
| KeyError (msg : string)
| IndexError (msg : string).

(** The outcome of running a piece of code: a value, a raised exception,
    or a loop cut off by the iteration bound of the model. *)
Inductive result (A : Type) : Type :=
| Ok (a : A)
| Raise (e : exception)
| OutOfFuel.
Arguments Ok {A} a.
Arguments Raise {A} e.
Arguments OutOfFuel {A}.

#[global] Instance result_ret : MRet result := λ A a, Ok a.
#[global] Instance result_bind : MBind result := λ A B k m,
  match m with
  | Ok a => k a
  | Raise e => Raise e
  | OutOfFuel => OutOfFuel
  end.

(** [l[i]] on a Python list. *)
Definition getitem {A} (l : list A) (i : nat) : result A :=
  match l !! i with
  | Some x => Ok x
  | None => Raise (IndexError "list index out of range")
  end.

(** [l[i] = x] on a Python list. *)
Definition setitem {A} (l : list A) (i : nat) (x : A) : result (list A) :=
  if decide (i < length l) then Ok (<[i:=x]> l)
  else Raise (IndexError "list assignment index out of range").

(** ** [class HuffmanNode] *)

#[local] Unset Elimination Schemes.
Inductive HuffmanNode : Type :=
  mkNode {
    char : option ascii;
    freq : nat;
    left : option HuffmanNode;
    right : option HuffmanNode
  }.
#[local] Set Elimination Schemes.

(** [HuffmanNode(char, freq)] *)
Definition HuffmanNode_init (c : option ascii) (f : nat) : HuffmanNode :=
  {| char := c; freq := f; left := None; right := None |}.

(** [__lt__] *)
Definition node_lt (self other : HuffmanNode) : bool :=
  bool_decide (freq self < freq other).

(** ** [heapq] (CPython's [Lib/heapq.py]), on lists of nodes ordered by
    [__lt__] *)
Module heapq.

(** The [while pos > startpos] loop of [_siftdown]; [pos] decreases at
    every iteration. *)
Fixpoint _siftdown_loop (fuel : nat) (heap : list HuffmanNode)
    (newitem : HuffmanNode) (startpos pos : nat) : result (list HuffmanNode * nat) :=
  if decide (startpos < pos) then
    match fuel with
    | 0 => OutOfFuel
    | S fuel' =>
        let parentpos := (pos - 1) / 2 in
        parent ← getitem heap parentpos;
        if node_lt newitem parent then
          heap ← setitem heap pos parent;
          _siftdown_loop fuel' heap newitem startpos parentpos
        else Ok (heap, pos)
    end
  else Ok (heap, pos).

Definition _siftdown (heap : list HuffmanNode) (startpos pos : nat)
    : result (list HuffmanNode) :=
  newitem ← getitem heap pos;
  '(heap, pos) ← _siftdown_loop pos heap newitem startpos pos;
  setitem heap pos newitem.

(** The [while childpos < endpos] loop of [_siftup]; [childpos]
    increases at every iteration. *)
Fixpoint _siftup_loop (fuel : nat) (heap : list HuffmanNode)
    (endpos pos childpos : nat) : result (list HuffmanNode * nat) :=
  if decide (childpos < endpos) then
    match fuel with
    | 0 => OutOfFuel
    | S fuel' =>
        let rightpos := childpos + 1 in
        childpos ←
          (if decide (rightpos < endpos) then
             c ← getitem heap childpos;
             r ← getitem heap rightpos;
             Ok (if negb (node_lt c r) then rightpos else childpos)
           else Ok childpos);
        c ← getitem heap childpos;
        heap ← setitem heap pos c;
        _siftup_loop fuel' heap endpos childpos (2 * childpos + 1)
    end
  else Ok (heap, pos).

Definition _siftup (heap : list HuffmanNode) (pos : nat)
    : result (list HuffmanNode) :=
  let endpos := length heap in
  let startpos := pos in
  newitem ← getitem heap pos;
  '(heap, pos) ← _siftup_loop endpos heap endpos pos (2 * pos + 1);
  heap ← setitem heap pos newitem;
  _siftdown heap startpos pos.

Definition heappush (heap : list HuffmanNode) (item : HuffmanNode)
    : result (list HuffmanNode) :=
  let heap := heap ++ [item] in
  _siftdown heap 0 (length heap - 1).

(** [heap.pop()]: the last element and the list without it. *)
Definition list_pop (heap : list HuffmanNode)
    : result (HuffmanNode * list HuffmanNode) :=
  match last heap with
  | Some x => Ok (x, removelast heap)
  | None => Raise (IndexError "pop from empty list")
  end.

Definition heappop (heap : list HuffmanNode)
    : result (HuffmanNode * list HuffmanNode) :=
  '(lastelt, heap) ← list_pop heap;
  match heap with
  | [] => Ok (lastelt, heap)
  | _ :: _ =>
      returnitem ← getitem heap 0;
      heap ← setitem heap 0 lastelt;
      heap ← _siftup heap 0;
      Ok (returnitem, heap)
  end.

End heapq.

(** ** Built-ins used by the module *)

(** [for x in l: body], threading the variables the body assigns. *)
Fixpoint for_ {A S} (l : list A) (body : S → A → result S) (s : S) : result S :=
  match l with
  | [] => Ok s
  | x :: l' => s' ← body s x; for_ l' body s'
  end.

(** [range(0, stop, step)] *)
Definition range0 (stop step : nat) : list nat :=
  (λ k, k * step) <$> seq 0 ((stop + step - 1) / step).

(** [s[i:j]] for non-negative [i] and [j]. *)
Definition slice {A} (s : list A) (i j : nat) : list A := take (j - i) (drop i s).

(** The index that [-p] denotes in [s] (for [p > 0]), clamped at 0 as
    slicing does. *)
Definition from_end {A} (s : list A) (p : nat) : nat := length s - p.

(** [bin(n)] without its [0b] prefix, most significant digit first. *)
Fixpoint pos_digits (p : positive) : str :=
  match p with
  | xH => py "1"
  | xO p' => pos_digits p' ++ py "0"
  | xI p' => pos_digits p' ++ py "1"
  end.

Definition bin_digits (n : nat) : str :=
  match N.of_nat n with
  | N0 => py "0"
  | Npos p => pos_digits p
  end.

(** [format(n, '08b')]: binary, zero-filled on the left to width 8. *)
Definition format_08b (n : nat) : str :=
  let d := bin_digits n in replicate (8 - length d) "0"%char ++ d.

Definition digit2 (c : ascii) : option nat :=
  if decide (c = "0"%char) then Some 0
  else if decide (c = "1"%char) then Some 1
  else None.

Fixpoint int2_digits (s : str) (acc : nat) : option nat :=
  match s with
  | [] => Some acc
  | c :: s' =>
      match digit2 c with
      | Some d => int2_digits s' (2 * acc + d)
      | None => None
      end
  end.

(** [int(s, 2)] on strings of binary digits; every other string
    (the empty one included) is a [ValueError].  Python also accepts a
    sign, a [0b] prefix, underscores and surrounding blanks, forms that
    no bit string of this module has. *)
Definition int2 (s : str) : result nat :=
  match s with
  | [] => Raise (ValueError "invalid literal for int() with base 2")
  | _ =>
      match int2_digits s 0 with
      | Some n => Ok n
      | None => Raise (ValueError "invalid literal for int() with base 2")
      end
  end.

(** [b.append(n)] on a [bytearray]. *)
Definition bytearray_append (b : list byte) (n : nat) : result (list byte) :=
  match Byte.of_nat n with
  | Some x => Ok (b ++ [x])
  | None => Raise (ValueError "byte must be in range(0, 256)")
  end.

(** [Counter(text)]: the counts, keyed in order of first occurrence. *)
Fixpoint counter_incr (c : ascii) (d : list (ascii * nat)) : list (ascii * nat) :=
  match d with
  | [] => [(c, 1)]
  | (k, n) :: d' =>
      if decide (k = c) then (k, S n) :: d' else (k, n) :: counter_incr c d'
  end.

Definition Counter (text : str) : list (ascii * nat) :=
  fold_left (λ d c, counter_incr c d) text [].

(** ** [class HuffmanCoding] *)

Record HuffmanCoding : Type :=
  mkCoding {
    heap : list HuffmanNode;
    codes : gmap ascii str;
    reverse_mapping : gmap str ascii
  }.

(** [__init__] *)
Definition HuffmanCoding_init : HuffmanCoding :=
  {| heap := []; codes := ∅; reverse_mapping := ∅ |}.

Definition set_heap (self : HuffmanCoding) (h : list HuffmanNode) : HuffmanCoding :=
  {| heap := h; codes := codes self; reverse_mapping := reverse_mapping self |}.

Definition make_frequency_dict (text : str) : list (ascii * nat) := Counter text.

(** [make_heap] and [merge_nodes] mutate the list [self.heap] in place;
    their loops run on that list, which is stored back at the end. *)
Definition make_heap (self : HuffmanCoding) (frequency : list (ascii * nat))
    : result HuffmanCoding :=
  h ← for_ frequency
        (λ h '(c, f),
           let node := HuffmanNode_init (Some c) f in
           heapq.heappush h node)
        (heap self);
  Ok (set_heap self h).

(** The loop of [merge_nodes]; the heap loses one node per iteration. *)
Fixpoint merge_nodes_loop (fuel : nat) (h : list HuffmanNode)
    : result (list HuffmanNode) :=
  if decide (1 < length h) then
    match fuel with
    | 0 => OutOfFuel
    | S fuel' =>
        '(node1, h) ← heapq.heappop h;
        '(node2, h) ← heapq.heappop h;
        let merged :=
          {| char := None; freq := freq node1 + freq node2;
             left := Some node1; right := Some node2 |} in
        h ← heapq.heappush h merged;
        merge_nodes_loop fuel' h
    end
  else Ok h.

Definition merge_nodes (self : HuffmanCoding) : result HuffmanCoding :=
  h ← merge_nodes_loop (length (heap self)) (heap self);
  Ok (set_heap self h).

(** [current_code or "0"] *)
Definition or0 (current_code : str) : str :=
  match current_code with
  | [] => py "0"
  | _ => current_code
  end.

(** [make_codes_helper] on a node that is not [None]. *)
Fixpoint make_codes_node (node : HuffmanNode) (current_code : str)
    (self : HuffmanCoding) : HuffmanCoding :=
  match node with
  | mkNode (Some c) _ _ _ =>
      {| heap := heap self;
         codes := <[c := or0 current_code]> (codes self);
         reverse_mapping := <[or0 current_code := c]> (reverse_mapping self) |}
  | mkNode None _ l r =>
      let self :=
        match l with
        | None => self
        | Some n => make_codes_node n (current_code ++ py "0") self
        end in
      match r with
      | None => self
      | Some n => make_codes_node n (current_code ++ py "1") self
      end
  end.

Definition make_codes_helper (node : option HuffmanNode) (current_code : str)
    (self : HuffmanCoding) : HuffmanCoding :=
  match node with
  | None => self
  | Some n => make_codes_node n current_code self
  end.

Definition make_codes (self : HuffmanCoding) : result HuffmanCoding :=
  match heap self with
  | [] => Ok self
  | _ :: _ =>
      '(root, h) ← heapq.heappop (heap self);
      Ok (make_codes_helper (Some root) [] (set_heap self h))
  end.

(** The body of the loop of [get_encoded_text]. *)
Definition encode_step (self : HuffmanCoding) (encoded_text : str) (c : ascii)
    : result str :=
  match codes self !! c with
  | None =>
      Raise (KeyError ("Character '" +:+ String c "' not found in Huffman codes"))
  | Some code => Ok (encoded_text ++ code)
  end.

Definition get_encoded_text (self : HuffmanCoding) (text : str) : result str :=
  if decide (codes self = ∅) then Raise (KeyError "No Huffman codes available")
  else for_ text (encode_step self) [].

Definition pad_encoded_text (encoded_text : str) : str :=
  let padding_amount := 8 - length encoded_text mod 8 in
  let padding_amount := if decide (padding_amount = 8) then 0 else padding_amount in
  let padding_info := format_08b padding_amount in
  padding_info ++ encoded_text ++ replicate padding_amount "0"%char.

Definition get_byte_array (padded_encoded_text : str) : result (list byte) :=
  match padded_encoded_text with
  | [] => Raise (ValueError "Cannot create byte array from empty input")
  | _ =>
      for_ (range0 (length padded_encoded_text) 8)
        (λ b i,
           let byte := slice padded_encoded_text i (i + 8) in
           n ← int2 byte;
           bytearray_append b n)
        []
  end.

Definition compress (self : HuffmanCoding) (text : str)
    : result (list byte * gmap ascii str * HuffmanCoding) :=
  match text with
  | [] => Raise (ValueError "Cannot compress empty text")
  | _ =>
      let frequency := make_frequency_dict text in
      self ← make_heap self frequency;
      self ← merge_nodes self;
      self ← make_codes self;
      encoded_text ← get_encoded_text self text;
      let padded_encoded_text := pad_encoded_text encoded_text in
      byte_array ← get_byte_array padded_encoded_text;
      Ok (byte_array, codes self, self)
  end.

Definition remove_padding (bit_string : str) : result str :=
  if decide (length bit_string < 8) then
    Raise (ValueError "Invalid bit string: too short")
  else
    let padding_info := slice bit_string 0 8 in
    padding_amount ←
      match int2 padding_info with
      | Raise (ValueError _) => Raise (ValueError "Invalid padding information")
      | r => r
      end;
    if decide (7 < padding_amount
               ∨ (0 < padding_amount ∧ length bit_string < 8 + padding_amount)) then
      Raise (ValueError
        "Invalid bit string: invalid padding amount or insufficient length")
    else
      let bit_string :=
        if decide (0 < padding_amount)
        then slice bit_string 8 (from_end bit_string padding_amount)
        else drop 8 bit_string in
      match bit_string with
      | [] => Raise (ValueError "Invalid bit string: no data after padding")
      | _ => Ok bit_string
      end.

(** The body of the loop of [decode_text], on the pair
    [(current_code, decoded_text)]. *)
Definition decode_step (self : HuffmanCoding) (st : str * str) (bit : ascii)
    : result (str * str) :=
  let '(current_code, decoded_text) := st in
  if decide (bit ≠ "0"%char ∧ bit ≠ "1"%char) then
    Raise (ValueError "Invalid encoded text: contains non-binary characters")
  else
    let current_code := current_code ++ [bit] in
    match reverse_mapping self !! current_code with
    | Some character => Ok ([], decoded_text ++ [character])
    | None => Ok (current_code, decoded_text)
    end.

Definition decode_text (self : HuffmanCoding) (encoded_text : str) : result str :=
  match encoded_text with
  | [] => Raise (ValueError "Invalid encoded text: empty input")
  | _ =>
      '(current_code, decoded_text) ← for_ encoded_text (decode_step self) ([], []);
      match current_code with
      | [] => Ok decoded_text
      | _ => Raise (ValueError "Invalid encoded text: incomplete code")
      end
  end.

Definition decompress (self : HuffmanCoding) (byte_array : list byte) : result str :=
  bit_string ← for_ byte_array
    (λ bit_string b, Ok (bit_string ++ format_08b (Byte.to_nat b))) [];
  match (encoded_text ← remove_padding bit_string; decode_text self encoded_text) with
  | Raise (ValueError _) => Ok []
  | r => r
  end.

(** * Properties *)

(** ** Loops and slices *)

Lemma for_cons {A S} (x : A) (l : list A) (body : S → A → result S) (s : S) :
  for_ (x :: l) body s = (s' ← body s x; for_ l body s').
Proof. reflexivity. Qed.

Lemma slice_octet {A} (s : list A) (i : nat) :
  slice s i (i + 8) = take 8 (drop i s).
Proof. unfold slice. f_equal. lia. Qed.

(** ** Bits and bytes *)

Definition is_bit (c : ascii) : Prop := c = "0"%char ∨ c = "1"%char.

#[global] Instance is_bit_dec c : Decision (is_bit c).
Proof. unfold is_bit. apply _. Defined.

(** The bit string that [decompress] expands a byte sequence to. *)
Definition bits_of_bytes (bs : list byte) : str :=
  concat ((λ b, format_08b (Byte.to_nat b)) <$> bs).

Lemma bits_of_bytes_cons (b : byte) (bs : list byte) :
  bits_of_bytes (b :: bs) = format_08b (Byte.to_nat b) ++ bits_of_bytes bs.
Proof. reflexivity. Qed.

Lemma expand_bytes (bs : list byte) (acc : str) :
  for_ bs (λ bit_string b, Ok (bit_string ++ format_08b (Byte.to_nat b))) acc
  = Ok (acc ++ bits_of_bytes bs).
Proof.
  revert acc. induction bs as [|b bs IH]; intros acc; simpl.
  - by rewrite app_nil_r.
  - rewrite IH, bits_of_bytes_cons. by rewrite app_assoc.
Qed.

Lemma format_08b_byte (b : byte) :
  length (format_08b (Byte.to_nat b)) = 8
  ∧ Forall is_bit (format_08b (Byte.to_nat b))
  ∧ int2 (format_08b (Byte.to_nat b)) = Ok (Byte.to_nat b).
Proof.
  destruct b;
    (split; [vm_compute; reflexivity|split; [|vm_compute; reflexivity]]);
    apply (bool_decide_unpack _); vm_compute; exact I.
Qed.

Lemma length_bits_of_bytes (bs : list byte) :
  length (bits_of_bytes bs) = 8 * length bs.
Proof.
  induction bs as [|b bs IH]; [done|].
  rewrite bits_of_bytes_cons, length_app, IH.
  destruct (format_08b_byte b) as [-> _]. simpl. lia.
Qed.

Lemma bits_of_bytes_bits (bs : list byte) : Forall is_bit (bits_of_bytes bs).
Proof.
  induction bs as [|b bs IH]; [constructor|].
  rewrite bits_of_bytes_cons. apply Forall_app. split; [|done].
  apply format_08b_byte.
Qed.

(** Eight binary digits are the [format(_, '08b')] of exactly one byte. *)
Definition bit_of (b : bool) : ascii := if b then "1"%char else "0"%char.

Definition octet_ok (bl : list bool) : bool :=
  match int2 (bit_of <$> bl) with
  | Ok n =>
      match Byte.of_nat n with
      | Some b => bool_decide (format_08b (Byte.to_nat b) = bit_of <$> bl)
      | None => false
      end
  | _ => false
  end.

Lemma octet_ok_all (b0 b1 b2 b3 b4 b5 b6 b7 : bool) :
  octet_ok [b0; b1; b2; b3; b4; b5; b6; b7] = true.
Proof.
  destruct b0, b1, b2, b3, b4, b5, b6, b7; vm_compute; reflexivity.
Qed.

Lemma bits_of_bools (s : str) : Forall is_bit s → ∃ bl, s = bit_of <$> bl.
Proof.
  induction 1 as [|c s [-> | ->] _ [bl ->]].
  - by exists [].
  - by exists (false :: bl).
  - by exists (true :: bl).
Qed.

Lemma pack_octet (s : str) :
  length s = 8 → Forall is_bit s →
  ∃ n b, int2 s = Ok n ∧ Byte.of_nat n = Some b
         ∧ format_08b (Byte.to_nat b) = s.
Proof.
  intros Hlen [bl ->]%bits_of_bools.
  rewrite length_fmap in Hlen.
  destruct bl as [|b0 [|b1 [|b2 [|b3 [|b4 [|b5 [|b6 [|b7 [|? ?]]]]]]]]];
    try discriminate Hlen.
  pose proof (octet_ok_all b0 b1 b2 b3 b4 b5 b6 b7) as Hok.
  unfold octet_ok in Hok.
  destruct (int2 _) as [n| |]; try discriminate Hok.
  destruct (Byte.of_nat n) as [x|] eqn:Hx; try discriminate Hok.
  exists n, x. by apply bool_decide_eq_true in Hok.
Qed.

Lemma bytearray_append_Some (acc : list byte) (n : nat) (b : byte) :
  Byte.of_nat n = Some b → bytearray_append acc n = Ok (acc ++ [b]).
Proof. unfold bytearray_append. by intros ->. Qed.

(** [get_byte_array] on a bit string of whole octets: one byte per
    octet, and expanding the bytes gives the bit string back. *)
Lemma pack_loop (s : str) (k j : nat) (acc : list byte) :
  length s = 8 * (j + k) → Forall is_bit s →
  ∃ bs,
    for_ ((λ i, i * 8) <$> seq j k)
      (λ b i, n ← int2 (slice s i (i + 8)); bytearray_append b n) acc
    = Ok (acc ++ bs)
    ∧ length bs = k ∧ bits_of_bytes bs = drop (8 * j) s.
Proof.
  intros Hlen Hbits. revert j acc Hlen.
  induction k as [|k IH]; intros j acc Hlen.
  - exists []. simpl. rewrite app_nil_r. split_and!; try done.
    symmetry. apply drop_ge. lia.
  - change (seq j (S k)) with (j :: seq (S j) k).
    rewrite fmap_cons, for_cons, slice_octet.
    destruct (pack_octet (take 8 (drop (j * 8) s))) as (n & b & Hn & Hb & Hfmt).
    { rewrite length_take, length_drop. lia. }
    { by apply Forall_take, Forall_drop. }
    rewrite Hn. cbn [mbind result_bind].
    rewrite (bytearray_append_Some acc n b Hb). cbn [mbind result_bind].
    destruct (IH (S j) (acc ++ [b])) as (bs & Hfor & Hl & Hbits'); [lia|].
    exists (b :: bs). rewrite Hfor. split_and!.
    + by rewrite <- app_assoc.
    + simpl. lia.
    + rewrite bits_of_bytes_cons, Hfmt, Hbits'.
      replace (8 * S j) with (j * 8 + 8) by lia.
      replace (8 * j) with (j * 8) by lia.
      rewrite <- drop_drop. apply take_drop.
Qed.

Lemma range0_octets (k : nat) : range0 (8 * k) 8 = (λ i, i * 8) <$> seq 0 k.
Proof. unfold range0. f_equal. f_equal. lia. Qed.

Lemma get_byte_array_octets (s : str) (k : nat) :
  length s = 8 * k → 0 < k → Forall is_bit s →
  ∃ bs, get_byte_array s = Ok bs ∧ length bs = k ∧ bits_of_bytes bs = s.
Proof.
  intros Hlen Hk Hbits. unfold get_byte_array.
  destruct s as [|c s']; [simpl in Hlen; lia|].
  rewrite Hlen, range0_octets.
  destruct (pack_loop (c :: s') k 0 []) as (bs & Hfor & Hl & Hb); [done..|].
  exists bs. by rewrite Hfor.
Qed.

(** ** Padding *)

(** The number of padding bits [pad_encoded_text] declares. *)
Definition padding_of (encoded_text : str) : nat :=
  let padding_amount := 8 - length encoded_text mod 8 in
  if decide (padding_amount = 8) then 0 else padding_amount.

Lemma padding_of_formula (B : str) : padding_of B = (8 - length B mod 8) mod 8.
Proof. unfold padding_of. case_decide; lia. Qed.

Lemma padding_of_lt (B : str) : padding_of B < 8.
Proof. rewrite padding_of_formula. lia. Qed.

Lemma pad_encoded_text_eq (B : str) :
  pad_encoded_text B
  = format_08b (padding_of B) ++ B ++ replicate (padding_of B) "0"%char.
Proof. reflexivity. Qed.

Lemma format_08b_small (p : nat) :
  p < 8 →
  length (format_08b p) = 8 ∧ Forall is_bit (format_08b p)
  ∧ int2 (format_08b p) = Ok p.
Proof.
  intros Hp.
  destruct p as [|[|[|[|[|[|[|[|p]]]]]]]]; try lia;
    (split; [reflexivity|split; [|reflexivity]]);
    apply (bool_decide_unpack _); vm_compute; exact I.
Qed.

Lemma length_pad_encoded_text (B : str) :
  length (pad_encoded_text B) = 8 + length B + padding_of B.
Proof.
  rewrite pad_encoded_text_eq, !length_app, length_replicate.
  destruct (format_08b_small (padding_of B) (padding_of_lt B)) as [-> _]. lia.
Qed.

Lemma pad_encoded_text_octets (B : str) : length (pad_encoded_text B) mod 8 = 0.
Proof. rewrite length_pad_encoded_text, padding_of_formula. lia. Qed.

Lemma pad_encoded_text_bits (B : str) :
  Forall is_bit B → Forall is_bit (pad_encoded_text B).
Proof.
  intros HB. rewrite pad_encoded_text_eq. rewrite !Forall_app. split_and!.
  - apply format_08b_small, padding_of_lt.
  - done.
  - apply Forall_replicate. by left.
Qed.

Lemma remove_padding_pad (B : str) :
  B ≠ [] → remove_padding (pad_encoded_text B) = Ok B.
Proof.
  intros HB. unfold remove_padding.
  pose proof (length_pad_encoded_text B) as Hlen.
  pose proof (padding_of_lt B) as Hp.
  destruct (format_08b_small _ Hp) as (Hfl & _ & Hint).
  rewrite decide_False by lia.
  assert (slice (pad_encoded_text B) 0 8 = format_08b (padding_of B)) as ->.
  { unfold slice. rewrite drop_0, pad_encoded_text_eq.
    by apply take_app_length'. }
  rewrite Hint. simpl.
  rewrite decide_False by lia.
  assert (drop 8 (pad_encoded_text B) = B ++ replicate (padding_of B) "0"%char)
    as Hdrop.
  { rewrite pad_encoded_text_eq. by rewrite drop_app_length'. }
  case_decide as Hpos.
  - unfold slice, from_end. rewrite Hdrop, Hlen.
    replace (8 + length B + padding_of B - padding_of B - 8) with (length B) by lia.
    rewrite take_app_length. by destruct B.
  - rewrite Hdrop. replace (padding_of B) with 0 by lia. simpl.
    rewrite app_nil_r. by destruct B.
Qed.

(** ** The heap keeps its nodes

    The order in which [heapq] hands out nodes of equal frequency shapes
    the tree, but every property below only needs that pushing and
    popping never lose, duplicate or invent a node. *)

Lemma getitem_lt {A} (l : list A) (i : nat) :
  i < length l → ∃ x, l !! i = Some x ∧ getitem l i = Ok x.
Proof.
  intros [x Hx]%lookup_lt_is_Some_2. exists x. unfold getitem. by rewrite Hx.
Qed.

Lemma setitem_lt {A} (l : list A) (i : nat) (x : A) :
  i < length l → setitem l i x = Ok (<[i:=x]> l).
Proof. intros Hi. unfold setitem. by rewrite decide_True. Qed.

Lemma insert_Permutation {A} (l : list A) (i : nat) (x : A) :
  i < length l → <[i:=x]> l ≡ₚ x :: delete i l.
Proof.
  revert i. induction l as [|y l IH]; intros [|i] Hi; simpl in *; try lia.
  - done.
  - rewrite IH by lia. apply Permutation_swap.
Qed.

(** Moving the element at [i] to [j] and putting [x] at [i] rearranges
    the list that has [x] at [j]. *)
Lemma move_hole {A} (l : list A) (i j : nat) (a x : A) :
  i ≠ j → l !! i = Some a → j < length l →
  <[i:=x]> (<[j:=a]> l) ≡ₚ <[j:=x]> l.
Proof.
  revert i j. induction l as [|y l IH]; intros [|i] [|j] Hij Hi Hj;
    simpl in *; try done; try lia.
  - injection Hi as ->.
    rewrite !insert_Permutation by lia. apply Permutation_swap.
  - rewrite insert_Permutation by (by eapply lookup_lt_Some).
    rewrite (delete_Permutation l i a Hi) at 2. apply Permutation_swap.
  - apply Permutation_skip, IH; [lia|done|lia].
Qed.

Module heapq_facts.
Import heapq.

Lemma _siftdown_loop_hole fuel (heap : list HuffmanNode) newitem startpos pos :
  pos < length heap → pos ≤ fuel →
  ∃ heap' pos',
    _siftdown_loop fuel heap newitem startpos pos = Ok (heap', pos')
    ∧ pos' < length heap'
    ∧ <[pos':=newitem]> heap' ≡ₚ <[pos:=newitem]> heap.
Proof.
  revert heap pos. induction fuel as [|fuel IH]; intros heap pos Hpos Hfuel.
  - cbn [_siftdown_loop]. rewrite decide_False by lia. eauto.
  - cbn [_siftdown_loop]. case_decide as Hlt; [|eauto].
    destruct (getitem_lt heap ((pos - 1) / 2)) as (parent & Hparent & ->); [lia|].
    cbn [mbind result_bind].
    destruct (node_lt newitem parent); [|eauto].
    rewrite setitem_lt by done. cbn [mbind result_bind].
    destruct (IH (<[pos:=parent]> heap) ((pos - 1) / 2))
      as (heap' & pos' & -> & Hlen & Hperm);
      [rewrite length_insert; lia|lia|].
    exists heap', pos'. split_and!; [done..|].
    rewrite Hperm. apply move_hole; [lia|done..].
Qed.

Lemma _siftdown_Permutation (heap : list HuffmanNode) startpos pos :
  pos < length heap →
  ∃ heap', _siftdown heap startpos pos = Ok heap' ∧ heap' ≡ₚ heap.
Proof.
  intros Hpos. unfold _siftdown.
  destruct (getitem_lt heap pos Hpos) as (newitem & Hnew & ->).
  cbn [mbind result_bind].
  destruct (_siftdown_loop_hole pos heap newitem startpos pos)
    as (heap' & pos' & -> & Hlen & Hperm); [done..|].
  cbn [mbind result_bind]. rewrite setitem_lt by done.
  eexists. split; [done|]. by rewrite Hperm, list_insert_id.
Qed.

Lemma _siftup_loop_hole fuel (heap : list HuffmanNode) endpos pos childpos :
  endpos = length heap → pos < childpos → pos < length heap →
  endpos ≤ fuel + childpos →
  ∃ heap' pos',
    _siftup_loop fuel heap endpos pos childpos = Ok (heap', pos')
    ∧ pos' < length heap'
    ∧ ∀ newitem, <[pos':=newitem]> heap' ≡ₚ <[pos:=newitem]> heap.
Proof.
  revert heap pos childpos.
  induction fuel as [|fuel IH]; intros heap pos childpos Hend Hchild Hpos Hfuel.
  - cbn [_siftup_loop]. rewrite decide_False by lia. eauto.
  - cbn [_siftup_loop]. case_decide as Hlt; [|eauto].
    assert (∃ c, (if decide (childpos + 1 < endpos)
                  then c ← getitem heap childpos;
                       r ← getitem heap (childpos + 1);
                       Ok (if negb (node_lt c r) then childpos + 1 else childpos)
                  else Ok childpos) = Ok c
                 ∧ childpos ≤ c < endpos) as (c & -> & Hc).
    { case_decide as Hr; [|exists childpos; split; [done|lia]].
      destruct (getitem_lt heap childpos) as (a & _ & ->); [lia|].
      destruct (getitem_lt heap (childpos + 1)) as (b & _ & ->); [lia|].
      cbn [mbind result_bind].
      destruct (negb (node_lt a b)); eexists; (split; [done|lia]). }
    cbn [mbind result_bind].
    destruct (getitem_lt heap c) as (a & Ha & ->); [lia|].
    cbn [mbind result_bind]. rewrite setitem_lt by done.
    cbn [mbind result_bind].
    destruct (IH (<[pos:=a]> heap) c (2 * c + 1))
      as (heap' & pos' & -> & Hlen & Hperm);
      [by rewrite length_insert|lia|rewrite length_insert; lia|lia|].
    exists heap', pos'. split_and!; [done..|].
    intros newitem. rewrite Hperm. apply move_hole; [lia|done..].
Qed.

Lemma _siftup_Permutation (heap : list HuffmanNode) pos :
  pos < length heap →
  ∃ heap', _siftup heap pos = Ok heap' ∧ heap' ≡ₚ heap.
Proof.
  intros Hpos. unfold _siftup.
  destruct (getitem_lt heap pos Hpos) as (newitem & Hnew & ->).
  cbn [mbind result_bind].
  destruct (_siftup_loop_hole (length heap) heap (length heap) pos (2 * pos + 1))
    as (h1 & p1 & -> & Hlen & Hperm); [done|lia|done|lia|].
  cbn [mbind result_bind]. rewrite setitem_lt by done.
  cbn [mbind result_bind].
  destruct (_siftdown_Permutation (<[p1:=newitem]> h1) pos p1)
    as (h2 & -> & Hperm2); [by rewrite length_insert|].
  exists h2. split; [done|].
  by rewrite Hperm2, Hperm, list_insert_id.
Qed.

Lemma heappush_Permutation (heap : list HuffmanNode) item :
  ∃ heap', heappush heap item = Ok heap' ∧ heap' ≡ₚ item :: heap.
Proof.
  unfold heappush.
  destruct (_siftdown_Permutation (heap ++ [item]) 0 (length (heap ++ [item]) - 1))
    as (heap' & -> & Hperm); [rewrite length_app; simpl; lia|].
  exists heap'. split; [done|].
  by rewrite Hperm, Permutation_app_comm.
Qed.

Lemma heappop_Permutation (heap : list HuffmanNode) :
  heap ≠ [] →
  ∃ item heap', heappop heap = Ok (item, heap') ∧ heap ≡ₚ item :: heap'.
Proof.
  intros [lastelt Hlast]%last_is_Some. unfold heappop, list_pop.
  rewrite Hlast. apply last_Some in Hlast as [rest ->].
  rewrite removelast_last. cbn [mbind result_bind].
  destruct rest as [|returnitem rest].
  - by exists lastelt, [].
  - cbn [getitem lookup list_lookup mbind result_bind].
    rewrite setitem_lt by (simpl; lia). cbn [mbind result_bind].
    destruct (_siftup_Permutation (<[0:=lastelt]> (returnitem :: rest)) 0)
      as (heap' & -> & Hperm); [simpl; lia|].
    exists returnitem, heap'. split; [done|].
    rewrite Hperm. simpl.
    by rewrite <- Permutation_cons_append.
Qed.

End heapq_facts.

(** ** Trees and the codes they assign *)

(** A node as the module builds them: a leaf carrying a symbol, or a
    merged node with both children. *)
Inductive proper : HuffmanNode → Prop :=
| proper_leaf c f l r : proper (mkNode (Some c) f l r)
| proper_merged f l r :
    proper l → proper r → proper (mkNode None f (Some l) (Some r)).

(** The symbols at the leaves, left to right. *)
Fixpoint symbols (node : HuffmanNode) : list ascii :=
  match node with
  | mkNode (Some c) _ _ _ => [c]
  | mkNode None _ l r =>
      match l with None => [] | Some n => symbols n end
      ++ match r with None => [] | Some n => symbols n end
  end.

(** The [(symbol, code)] pairs that [make_codes_helper] writes, in the
    order it writes them. *)
Fixpoint assignments (node : HuffmanNode) (current_code : str) : list (ascii * str) :=
  match node with
  | mkNode (Some c) _ _ _ => [(c, or0 current_code)]
  | mkNode None _ l r =>
      match l with None => [] | Some n => assignments n (current_code ++ py "0") end
      ++ match r with None => [] | Some n => assignments n (current_code ++ py "1") end
  end.

(** One write of [make_codes_helper]: the same pair goes into both
    dictionaries. *)
Definition assign (self : HuffmanCoding) (a : ascii * str) : HuffmanCoding :=
  {| heap := heap self;
     codes := <[a.1 := a.2]> (codes self);
     reverse_mapping := <[a.2 := a.1]> (reverse_mapping self) |}.

Definition opt_holds (P : HuffmanNode → Prop) (o : option HuffmanNode) : Prop :=
  match o with
  | None => True
  | Some n => P n
  end.

Fixpoint HuffmanNode_ind (P : HuffmanNode → Prop)
    (step : ∀ c f l r, opt_holds P l → opt_holds P r → P (mkNode c f l r))
    (node : HuffmanNode) : P node :=
  match node with
  | mkNode c f l r =>
      step c f l r
        (match l as o return opt_holds P o with
         | None => I
         | Some n => HuffmanNode_ind P step n
         end)
        (match r as o return opt_holds P o with
         | None => I
         | Some n => HuffmanNode_ind P step n
         end)
  end.

Lemma make_codes_node_assignments (node : HuffmanNode) (current_code : str)
    (self : HuffmanCoding) :
  make_codes_node node current_code self
  = foldl assign self (assignments node current_code).
Proof.
  revert current_code self.
  induction node as [[c|] f [l|] [r|] IHl IHr] using HuffmanNode_ind;
    intros current_code self; simpl in *; try done.
  - by rewrite foldl_app, IHl, IHr.
  - by rewrite app_nil_r, IHl.
Qed.

Lemma assignments_symbols (node : HuffmanNode) (current_code : str) :
  (assignments node current_code).*1 = symbols node.
Proof.
  revert current_code.
  induction node as [[c|] f [l|] [r|] IHl IHr] using HuffmanNode_ind;
    intros current_code; simpl in *; try done.
  - by rewrite fmap_app, IHl, IHr.
  - by rewrite !app_nil_r, IHl.
Qed.

Lemma or0_prefix (current_code : str) : current_code `prefix_of` or0 current_code.
Proof. destruct current_code; [apply prefix_nil|done]. Qed.

Lemma or0_nonempty (current_code : str) : or0 current_code ≠ [].
Proof. by destruct current_code. Qed.

Lemma or0_bits (current_code : str) :
  Forall is_bit current_code → Forall is_bit (or0 current_code).
Proof. destruct current_code; [|done]. intros _. repeat constructor. Qed.

(** Every code starts with the path that led to the subtree, is not empty
    and consists of binary digits. *)
Lemma assignments_codes (node : HuffmanNode) :
  proper node →
  ∀ current_code p, p ∈ (assignments node current_code).*2 →
    current_code `prefix_of` p ∧ p ≠ []
    ∧ (Forall is_bit current_code → Forall is_bit p).
Proof.
  induction 1 as [c f l r|f l r _ IHl _ IHr]; intros current_code p Hp; simpl in Hp.
  - apply list_elem_of_singleton in Hp as ->.
    auto using or0_prefix, or0_nonempty, or0_bits.
  - rewrite fmap_app, elem_of_app in Hp.
    destruct Hp as [Hp|Hp]; [apply IHl in Hp|apply IHr in Hp];
      destruct Hp as (Hpre & Hne & Hbits); (split_and!; [|done|]).
    + etrans; [|done]. by apply prefix_app_r.
    + intros Hcc. apply Hbits, Forall_app. split; [done|].
      apply Forall_singleton. by left.
    + etrans; [|done]. by apply prefix_app_r.
    + intros Hcc. apply Hbits, Forall_app. split; [done|].
      apply Forall_singleton. by right.
Qed.

(** A list of codes none of which is a prefix of another one. *)
Definition prefix_free (l : list str) : Prop :=
  NoDup l ∧ ∀ x y, x ∈ l → y ∈ l → x `prefix_of` y → x = y.

Lemma branches_apart (current_code x y : str) :
  (current_code ++ py "0") `prefix_of` x →
  (current_code ++ py "1") `prefix_of` y →
  ¬ x `prefix_of` y ∧ ¬ y `prefix_of` x.
Proof.
  intros H0 H1.
  assert (∀ z, (current_code ++ py "0") `prefix_of` z →
               (current_code ++ py "1") `prefix_of` z → False) as Hz.
  { intros z [k0 ->] [k1 Hk]. rewrite <- !app_assoc in Hk.
    by apply app_inv_head in Hk. }
  split; intros Hxy.
  - apply (Hz y); [by etrans|done].
  - apply (Hz x); [done|by etrans].
Qed.

Lemma assignments_prefix_free (node : HuffmanNode) :
  proper node → ∀ current_code, prefix_free (assignments node current_code).*2.
Proof.
  induction 1 as [c f l r|f l r Hl IHl Hr IHr]; intros current_code; simpl.
  - split; [apply NoDup_singleton|].
    by intros x y ->%list_elem_of_singleton ->%list_elem_of_singleton _.
  - rewrite fmap_app.
    destruct (IHl (current_code ++ py "0")) as [Hnd0 Hpf0].
    destruct (IHr (current_code ++ py "1")) as [Hnd1 Hpf1].
    assert (∀ x y, x ∈ (assignments l (current_code ++ py "0")).*2 →
                   y ∈ (assignments r (current_code ++ py "1")).*2 →
                   ¬ x `prefix_of` y ∧ ¬ y `prefix_of` x) as Hcross.
    { intros x y Hx Hy.
      apply (branches_apart current_code);
        [by apply (assignments_codes l Hl)|by apply (assignments_codes r Hr)]. }
    split.
    + apply NoDup_app. split_and!; [done| |done].
      intros x Hx Hx'. by destruct (Hcross x x Hx Hx') as [[] _].
    + intros x y [Hx|Hx]%elem_of_app [Hy|Hy]%elem_of_app Hxy.
      * by apply Hpf0.
      * by destruct (Hcross x y Hx Hy) as [[] _].
      * by destruct (Hcross y x Hy Hx) as [_ []].
      * by apply Hpf1.
Qed.

(** ** Building the tree *)

(** The heap that [make_heap] followed by [merge_nodes] leaves in a fresh
    instance. *)
Definition huffman_forest (frequency : list (ascii * nat)) : result (list HuffmanNode) :=
  self ← make_heap HuffmanCoding_init frequency;
  self ← merge_nodes self;
  Ok (heap self).

Lemma make_heap_merge_nodes {B} (self : HuffmanCoding)
    (frequency : list (ascii * nat)) (K : HuffmanCoding → result B) :
  heap self = [] →
  (self ← make_heap self frequency; self ← merge_nodes self; K self)
  = (h ← huffman_forest frequency; K (set_heap self h)).
Proof.
  intros Hheap. unfold huffman_forest, make_heap, merge_nodes. rewrite Hheap.
  change (heap HuffmanCoding_init) with (@nil HuffmanNode).
  destruct (for_ frequency _ []) as [h| |]; cbn [mbind result_bind]; [|done..].
  cbn [heap set_heap].
  destruct (merge_nodes_loop _ h) as [h'| |]; cbn [mbind result_bind]; [|done..].
  by destruct self.
Qed.

Lemma make_heap_loop_spec (frequency : list (ascii * nat)) (h : list HuffmanNode) :
  Forall proper h →
  ∃ h',
    for_ frequency
      (λ h '(c, f), heapq.heappush h (HuffmanNode_init (Some c) f))
      h = Ok h'
    ∧ Forall proper h'
    ∧ h' ≫= symbols ≡ₚ (h ≫= symbols) ++ frequency.*1
    ∧ length h' = length h + length frequency.
Proof.
  revert h. induction frequency as [|[c f] frequency IH]; intros h Hh.
  - exists h. simpl. rewrite app_nil_r. split_and!; [done..|lia].
  - rewrite for_cons. cbn zeta.
    destruct (heapq_facts.heappush_Permutation h (HuffmanNode_init (Some c) f))
      as (h1 & -> & Hperm).
    cbn [mbind result_bind].
    destruct (IH h1) as (h' & Hfor & Hproper & Hsym & Hlen).
    { rewrite Hperm. constructor; [constructor|done]. }
    exists h'. split_and!; [exact Hfor|done| |].
    + rewrite Hsym, Hperm. simpl. apply Permutation_middle.
    + rewrite Hlen, Hperm. simpl. lia.
Qed.

Lemma merge_nodes_loop_spec (fuel : nat) (h : list HuffmanNode) :
  Forall proper h → h ≠ [] → length h ≤ S fuel →
  ∃ root,
    merge_nodes_loop fuel h = Ok [root]
    ∧ proper root ∧ symbols root ≡ₚ h ≫= symbols.
Proof.
  revert h. induction fuel as [|fuel IH]; intros h Hproper Hne Hlen.
  - destruct h as [|root [|??]]; simpl in *; try done; try lia.
    exists root. split_and!; [done|by inversion Hproper|by rewrite app_nil_r].
  - cbn [merge_nodes_loop]. case_decide as Hmany.
    + destruct (heapq_facts.heappop_Permutation h Hne) as (node1 & h1 & -> & Hp1).
      cbn [mbind result_bind].
      assert (length h = S (length h1)) as Hl1 by by rewrite Hp1.
      destruct (heapq_facts.heappop_Permutation h1) as (node2 & h2 & -> & Hp2).
      { intros ->. simpl in *. lia. }
      cbn [mbind result_bind].
      assert (length h1 = S (length h2)) as Hl2 by by rewrite Hp2.
      set (merged := {| char := None; freq := freq node1 + freq node2;
                        left := Some node1; right := Some node2 |}).
      destruct (heapq_facts.heappush_Permutation h2 merged) as (h3 & -> & Hp3).
      cbn [mbind result_bind].
      rewrite Hp1, Hp2 in Hproper.
      apply Forall_cons in Hproper as [Hn1 Hproper].
      apply Forall_cons in Hproper as [Hn2 Hproper].
      destruct (IH h3) as (root & -> & Hroot & Hsym).
      { rewrite Hp3. constructor; [by constructor|done]. }
      { intros ->. by apply Permutation_nil_cons in Hp3. }
      { rewrite Hp3. simpl. lia. }
      exists root. split_and!; [done..|].
      rewrite Hsym, Hp3, Hp1, Hp2. simpl. by rewrite <- app_assoc.
    + destruct h as [|root [|??]]; simpl in *; try done; try lia.
      exists root. split_and!; [done|by inversion Hproper|by rewrite app_nil_r].
Qed.

(** From a non-empty frequency table the heap ends up holding one tree,
    whose leaves carry exactly the symbols of the table. *)
Lemma huffman_forest_spec (frequency : list (ascii * nat)) :
  frequency ≠ [] →
  ∃ root,
    huffman_forest frequency = Ok [root]
    ∧ proper root ∧ symbols root ≡ₚ frequency.*1.
Proof.
  intros Hne. unfold huffman_forest, make_heap, merge_nodes.
  change (heap HuffmanCoding_init) with (@nil HuffmanNode).
  destruct (make_heap_loop_spec frequency []) as (h & -> & Hproper & Hsym & Hlen);
    [constructor|].
  cbn [mbind result_bind heap set_heap].
  destruct (merge_nodes_loop_spec (length h) h) as (root & -> & Hroot & Hsym');
    [done| |lia|].
  { intros ->. destruct frequency; simpl in *; [done|lia]. }
  exists root. split_and!; [done..|]. by rewrite Hsym', Hsym.
Qed.

(** ** The frequency table *)

Lemma counter_incr_keys (c : ascii) (d : list (ascii * nat)) :
  (counter_incr c d).*1 = if decide (c ∈ d.*1) then d.*1 else d.*1 ++ [c].
Proof.
  induction d as [|[k n] d IH]; simpl; [done|].
  destruct (decide (k = c)) as [->|Hk].
  - rewrite decide_True by left. done.
  - rewrite fmap_cons, IH. cbn [fst].
    destruct (decide (c ∈ d.*1)) as [Hc|Hc].
    + rewrite decide_True by by right. done.
    + rewrite decide_False; [done|]. intros [?|?]%elem_of_cons; by simplify_eq.
Qed.

Lemma Counter_loop_keys (text : str) (d : list (ascii * nat)) :
  NoDup d.*1 →
  NoDup (fold_left (λ d c, counter_incr c d) text d).*1
  ∧ ∀ k, k ∈ (fold_left (λ d c, counter_incr c d) text d).*1 ↔ k ∈ text ∨ k ∈ d.*1.
Proof.
  revert d. induction text as [|c text IH]; intros d Hd; simpl.
  - split; [done|]. intros k. rewrite elem_of_nil. tauto.
  - destruct (IH (counter_incr c d)) as [Hnd Hin].
    { rewrite counter_incr_keys. case_decide; [done|].
      apply NoDup_app. split_and!; [done| |apply NoDup_singleton].
      by intros x Hx ->%list_elem_of_singleton. }
    split; [done|]. intros k. rewrite Hin, counter_incr_keys, elem_of_cons.
    case_decide; [|rewrite elem_of_app, list_elem_of_singleton];
      split; intros; destruct_or?; subst; auto.
Qed.

Lemma Counter_NoDup (text : str) : NoDup (Counter text).*1.
Proof. apply Counter_loop_keys. constructor. Qed.

Lemma elem_of_Counter (text : str) (c : ascii) : c ∈ (Counter text).*1 ↔ c ∈ text.
Proof.
  destruct (Counter_loop_keys text []) as [_ ->]; [constructor|].
  simpl. rewrite elem_of_nil. tauto.
Qed.

Lemma Counter_nonempty (text : str) : text ≠ [] → Counter text ≠ [].
Proof.
  destruct text as [|c text]; [done|]. intros _ Hnil.
  assert (c ∈ (Counter (c :: text)).*1) as Hc by (apply elem_of_Counter; left).
  rewrite Hnil in Hc. by apply elem_of_nil in Hc.
Qed.

(** ** The two dictionaries *)

(** The code table and its inverse, as the tree alone determines them. *)
Definition code_table (root : HuffmanNode) : gmap ascii str :=
  list_to_map (assignments root []).

Definition decode_table (root : HuffmanNode) : gmap str ascii :=
  list_to_map (prod_swap <$> assignments root []).

Lemma foldl_assign (A : list (ascii * str)) (self : HuffmanCoding) :
  foldl assign self A
  = {| heap := heap self;
       codes := list_to_map (reverse A) ∪ codes self;
       reverse_mapping := list_to_map (prod_swap <$> reverse A) ∪ reverse_mapping self |}.
Proof.
  revert self. induction A as [|[c p] A IH]; intros self.
  - simpl. rewrite !(left_id_L ∅ (∪)). by destruct self.
  - cbn [foldl]. rewrite IH. unfold assign. cbn [heap codes reverse_mapping fst snd].
    rewrite reverse_cons, fmap_app, !list_to_map_app. cbn [fmap list_fmap list_to_map prod_swap fst snd foldr].
    rewrite !insert_empty, <- !(assoc_L (∪)), <- !insert_union_singleton_l.
    done.
Qed.

Section tables.
Context (root : HuffmanNode) (Hproper : proper root) (Hsymbols : NoDup (symbols root)).

Lemma assignments_NoDup_1 : NoDup (assignments root []).*1.
Proof using Hsymbols. by rewrite assignments_symbols. Qed.

Lemma assignments_NoDup_2 : NoDup (prod_swap <$> assignments root []).*1.
Proof using Hproper.
  rewrite <- list_fmap_compose.
  apply (assignments_prefix_free root Hproper []).
Qed.

Lemma code_table_lookup (c : ascii) (p : str) :
  code_table root !! c = Some p ↔ (c, p) ∈ assignments root [].
Proof using Hsymbols.
  unfold code_table. by rewrite <- elem_of_list_to_map by apply assignments_NoDup_1.
Qed.

Lemma decode_table_lookup (c : ascii) (p : str) :
  decode_table root !! p = Some c ↔ (c, p) ∈ assignments root [].
Proof using Hproper.
  unfold decode_table.
  rewrite <- elem_of_list_to_map by apply assignments_NoDup_2.
  rewrite list_elem_of_fmap. split.
  - by intros ([c' p'] & [= -> ->] & Hin).
  - intros Hin. by exists (c, p).
Qed.

Lemma code_table_inverse (c : ascii) (p : str) :
  code_table root !! c = Some p ↔ decode_table root !! p = Some c.
Proof using Hproper Hsymbols. by rewrite code_table_lookup, decode_table_lookup. Qed.

Lemma code_table_dom (c : ascii) :
  is_Some (code_table root !! c) ↔ c ∈ symbols root.
Proof using Hsymbols.
  rewrite <- (assignments_symbols root []), list_elem_of_fmap. split.
  - intros [p Hp%code_table_lookup]. by exists (c, p).
  - intros ([c' p] & -> & Hin). exists p. by apply code_table_lookup.
Qed.

Lemma code_table_codes (c : ascii) (p : str) :
  code_table root !! c = Some p → p ≠ [] ∧ Forall is_bit p.
Proof using Hproper Hsymbols.
  intros Hin%code_table_lookup.
  destruct (assignments_codes root Hproper [] p) as (_ & Hne & Hbits).
  { apply list_elem_of_fmap. by exists (c, p). }
  split; [done|]. by apply Hbits.
Qed.

Lemma decode_table_prefix (p q : str) (c : ascii) :
  decode_table root !! p = Some c → q `prefix_of` p → q ≠ p →
  decode_table root !! q = None.
Proof using Hproper.
  intros Hp Hpre Hne. apply eq_None_not_Some. intros [c' Hq].
  apply decode_table_lookup in Hp, Hq.
  destruct (assignments_prefix_free root Hproper []) as [_ Hpf].
  apply Hne, Hpf; [| |done]; apply list_elem_of_fmap;
    [by exists (c', q)|by exists (c, p)].
Qed.

Lemma code_table_prefix_free (c1 c2 : ascii) (p1 p2 : str) :
  code_table root !! c1 = Some p1 → code_table root !! c2 = Some p2 →
  p1 `prefix_of` p2 → c1 = c2.
Proof using Hproper Hsymbols.
  intros H1%code_table_inverse H2%code_table_inverse Hpre.
  destruct (decide (p1 = p2)) as [->|Hne]; [congruence|].
  by rewrite (decode_table_prefix p2 p1 c2) in H1.
Qed.

(** [make_codes] on a heap holding the tree. *)
Lemma make_codes_tree (self : HuffmanCoding) :
  make_codes (set_heap self [root])
  = Ok {| heap := [];
          codes := code_table root ∪ codes self;
          reverse_mapping := decode_table root ∪ reverse_mapping self |}.
Proof using Hproper Hsymbols.
  unfold make_codes. cbn [heap set_heap heapq.heappop heapq.list_pop last
    removelast mbind result_bind make_codes_helper].
  rewrite make_codes_node_assignments, foldl_assign.
  cbn [heap codes reverse_mapping set_heap].
  assert (list_to_map (reverse (assignments root [])) = code_table root) as ->.
  { apply list_to_map_proper; [|apply reverse_Permutation].
    rewrite fmap_reverse, reverse_Permutation. apply assignments_NoDup_1. }
  assert (list_to_map (prod_swap <$> reverse (assignments root []))
          = decode_table root) as ->; [|done].
  rewrite fmap_reverse.
  apply list_to_map_proper; [|apply reverse_Permutation].
  rewrite fmap_reverse, reverse_Permutation. apply assignments_NoDup_2.
Qed.

End tables.

(** ** Encoding and decoding with a code table *)

(** The bit string a code table gives a text: the codes of its symbols,
    one after the other. *)
Definition encode (T : gmap ascii str) (text : str) : str :=
  text ≫= λ c, default [] (T !! c).

Lemma encode_cons (T : gmap ascii str) (c : ascii) (text : str) :
  encode T (c :: text) = default [] (T !! c) ++ encode T text.
Proof. reflexivity. Qed.

Lemma encode_ext (T T' : gmap ascii str) (text : str) :
  (∀ c, c ∈ text → T !! c = T' !! c) → encode T text = encode T' text.
Proof.
  induction text as [|c text IH]; intros Hext; [done|].
  rewrite !encode_cons, IH, Hext; [done|by left|].
  intros c' Hc'. apply Hext. by right.
Qed.

Lemma encode_step_Some (self : HuffmanCoding) (acc : str) (c : ascii) (p : str) :
  codes self !! c = Some p → encode_step self acc c = Ok (acc ++ p).
Proof. unfold encode_step. by intros ->. Qed.

Lemma encode_loop (self : HuffmanCoding) (text acc : str) :
  (∀ c, c ∈ text → is_Some (codes self !! c)) →
  for_ text (encode_step self) acc = Ok (acc ++ encode (codes self) text).
Proof.
  revert acc. induction text as [|c text IH]; intros acc Hin.
  - simpl. by rewrite app_nil_r.
  - rewrite for_cons, encode_cons.
    destruct (Hin c) as [p Hp]; [by left|].
    rewrite (encode_step_Some self acc c p Hp), Hp.
    cbn [mbind result_bind default]. rewrite IH, app_assoc; [done|].
    intros c' Hc'. apply Hin. by right.
Qed.

Lemma get_encoded_text_spec (self : HuffmanCoding) (text : str) :
  text ≠ [] → (∀ c, c ∈ text → is_Some (codes self !! c)) →
  get_encoded_text self text = Ok (encode (codes self) text).
Proof.
  intros Hne Hin. unfold get_encoded_text.
  rewrite decide_False, encode_loop; [done..|].
  destruct text as [|c text]; [done|]. intros Hempty.
  destruct (Hin c) as [p Hp]; [by left|].
  by rewrite Hempty, lookup_empty in Hp.
Qed.

(** A code that the reverse mapping knows, none of whose proper prefixes it
    knows, is read back as its symbol. *)
Definition decodable (self : HuffmanCoding) (c : ascii) (p : str) : Prop :=
  reverse_mapping self !! p = Some c ∧ p ≠ [] ∧ Forall is_bit p
  ∧ ∀ q, q `prefix_of` p → q ≠ p → reverse_mapping self !! q = None.

Lemma decode_step_hit (self : HuffmanCoding) (cur out : str) (b c : ascii) :
  is_bit b → reverse_mapping self !! (cur ++ [b]) = Some c →
  decode_step self (cur, out) b = Ok ([], out ++ [c]).
Proof.
  intros Hb Hc. unfold decode_step.
  rewrite decide_False by (intros [??]; by destruct Hb). by rewrite Hc.
Qed.

Lemma decode_step_miss (self : HuffmanCoding) (cur out : str) (b : ascii) :
  is_bit b → reverse_mapping self !! (cur ++ [b]) = None →
  decode_step self (cur, out) b = Ok (cur ++ [b], out).
Proof.
  intros Hb Hc. unfold decode_step.
  rewrite decide_False by (intros [??]; by destruct Hb). by rewrite Hc.
Qed.

Lemma decode_code (self : HuffmanCoding) (c : ascii) (p rest out : str) :
  decodable self c p →
  for_ (p ++ rest) (decode_step self) ([], out)
  = for_ rest (decode_step self) ([], out ++ [c]).
Proof.
  intros (Hp & Hne & Hbits & Hpre).
  enough (∀ p2 p1, p = p1 ++ p2 → p2 ≠ [] →
            for_ (p2 ++ rest) (decode_step self) (p1, out)
            = for_ rest (decode_step self) ([], out ++ [c])) as Hgen
    by by apply Hgen.
  induction p2 as [|b p2 IH]; intros p1 Heq Hne2; [done|].
  rewrite <- app_comm_cons, for_cons.
  assert (is_bit b) as Hb.
  { rewrite Heq in Hbits. apply Forall_app in Hbits as [_ Hbits].
    by apply Forall_cons in Hbits as [? _]. }
  destruct p2 as [|b' p2].
  - rewrite (decode_step_hit self p1 out b c); [done..|by rewrite <- Heq].
  - rewrite (decode_step_miss self p1 out b); [|done|].
    + cbn [mbind result_bind]. apply IH; [|done].
      by rewrite Heq, <- app_assoc.
    + apply Hpre.
      * exists (b' :: p2). by rewrite Heq, <- app_assoc.
      * rewrite Heq. intros Habs. apply (f_equal length) in Habs.
        rewrite !length_app in Habs. simpl in Habs. lia.
Qed.

Lemma decode_loop (self : HuffmanCoding) (T : gmap ascii str) (text out : str) :
  (∀ c, c ∈ text → ∃ p, T !! c = Some p ∧ decodable self c p) →
  for_ (encode T text) (decode_step self) ([], out) = Ok ([], out ++ text).
Proof.
  revert out. induction text as [|c text IH]; intros out Hin.
  - simpl. by rewrite app_nil_r.
  - destruct (Hin c) as (p & Hp & Hdec); [by left|].
    rewrite encode_cons, Hp. cbn [default].
    rewrite (decode_code self c p _ out Hdec), IH.
    + by rewrite <- app_assoc.
    + intros c' Hc'. apply Hin. by right.
Qed.

Lemma encode_bits (T : gmap ascii str) (text : str) :
  (∀ c p, T !! c = Some p → Forall is_bit p) → Forall is_bit (encode T text).
Proof.
  intros HT. induction text as [|c text IH]; [constructor|].
  rewrite encode_cons. apply Forall_app. split; [|done].
  destruct (T !! c) as [p|] eqn:Hp; [by eapply HT|constructor].
Qed.

Lemma encode_nonempty (T : gmap ascii str) (text : str) :
  text ≠ [] → (∀ c, c ∈ text → ∃ p, T !! c = Some p ∧ p ≠ []) →
  encode T text ≠ [].
Proof.
  destruct text as [|c text]; [done|]. intros _ Hin.
  destruct (Hin c) as (p & Hp & Hne); [by left|].
  rewrite encode_cons, Hp. cbn [default]. by destruct p.
Qed.

Lemma decode_text_encode (self : HuffmanCoding) (T : gmap ascii str) (text : str) :
  text ≠ [] →
  (∀ c, c ∈ text → ∃ p, T !! c = Some p ∧ decodable self c p) →
  decode_text self (encode T text) = Ok text.
Proof.
  intros Hne Hin. unfold decode_text.
  rewrite decode_loop by done. cbn [mbind result_bind app].
  pose proof (encode_nonempty T text Hne) as Hnonempty.
  destruct (encode T text); [|done].
  destruct Hnonempty; [|done].
  intros c Hc. destruct (Hin c Hc) as (p & Hp & _ & Hpne & _). eauto.
Qed.

(** ** What [compress] and [decompress] compute *)

(** The instance after a [compress] call that built the tree [root]: the
    heap is empty again and the tree's entries have been written over
    whatever the two dictionaries held. *)
Definition coded (self : HuffmanCoding) (root : HuffmanNode) : HuffmanCoding :=
  {| heap := [];
     codes := code_table root ∪ codes self;
     reverse_mapping := decode_table root ∪ reverse_mapping self |}.

Lemma compress_nonempty (self : HuffmanCoding) (text : str) :
  text ≠ [] →
  compress self text
  = (self ← make_heap self (make_frequency_dict text);
     self ← merge_nodes self;
     self ← make_codes self;
     encoded_text ← get_encoded_text self text;
     byte_array ← get_byte_array (pad_encoded_text encoded_text);
     Ok (byte_array, codes self, self)).
Proof. by destruct text. Qed.

Lemma compress_spec (self : HuffmanCoding) (text : str) :
  heap self = [] → text ≠ [] →
  ∃ root byte_array,
    huffman_forest (Counter text) = Ok [root]
    ∧ proper root ∧ NoDup (symbols root) ∧ (∀ c, c ∈ symbols root ↔ c ∈ text)
    ∧ compress self text = Ok (byte_array, codes (coded self root), coded self root)
    ∧ get_byte_array (pad_encoded_text (encode (code_table root) text))
      = Ok byte_array
    ∧ bits_of_bytes byte_array = pad_encoded_text (encode (code_table root) text)
    ∧ length byte_array * 8
      = 8 + length (encode (code_table root) text)
        + padding_of (encode (code_table root) text).
Proof.
  intros Hheap Hne.
  destruct (huffman_forest_spec (Counter text)) as (root & Hforest & Hproper & Hsym);
    [by apply Counter_nonempty|].
  assert (NoDup (symbols root)) as Hnodup by (rewrite Hsym; apply Counter_NoDup).
  assert (∀ c, c ∈ symbols root ↔ c ∈ text) as Hin
    by (intros c; by rewrite Hsym, elem_of_Counter).
  assert (encode (code_table root ∪ codes self) text = encode (code_table root) text)
    as Henc.
  { apply encode_ext. intros c Hc.
    apply lookup_union_l', code_table_dom; [done|]. by apply Hin. }
  set (B := encode (code_table root) text).
  destruct (get_byte_array_octets (pad_encoded_text B) (length (pad_encoded_text B) / 8))
    as (byte_array & Hbytes & Hlen & Hbits).
  { pose proof (pad_encoded_text_octets B). lia. }
  { rewrite length_pad_encoded_text. lia. }
  { apply pad_encoded_text_bits, encode_bits.
    intros c p Hp. by apply (code_table_codes root Hproper Hnodup c p). }
  exists root, byte_array. split_and!; [done..| |done|done|].
  - rewrite compress_nonempty by done. unfold make_frequency_dict.
    rewrite make_heap_merge_nodes by done.
    rewrite Hforest. cbn [mbind result_bind].
    rewrite (make_codes_tree root Hproper Hnodup). cbn [mbind result_bind].
    fold (coded self root).
    rewrite get_encoded_text_spec; [|done|].
    + cbn [mbind result_bind codes coded]. rewrite Henc. fold B.
      rewrite Hbytes. done.
    + intros c Hc. cbn [codes coded].
      rewrite lookup_union_l'; by apply code_table_dom, Hin.
  - rewrite Hlen. pose proof (pad_encoded_text_octets B).
    pose proof (length_pad_encoded_text B). subst B. lia.
Qed.

(** Decompressing with a reverse mapping that is exactly the inverse of
    the tree's code table. *)
Lemma decompress_spec (self : HuffmanCoding) (root : HuffmanNode)
    (text : str) (byte_array : list byte) :
  proper root → NoDup (symbols root) → (∀ c, c ∈ text → c ∈ symbols root) →
  text ≠ [] →
  reverse_mapping self = decode_table root →
  bits_of_bytes byte_array = pad_encoded_text (encode (code_table root) text) →
  decompress self byte_array = Ok text.
Proof.
  intros Hproper Hnodup Hin Hne Hrm Hbits. unfold decompress.
  rewrite expand_bytes. cbn [mbind result_bind app]. rewrite Hbits.
  assert (∀ c, c ∈ text → ∃ p, code_table root !! c = Some p ∧ decodable self c p)
    as Hdec.
  { intros c Hc. destruct (proj2 (code_table_dom root Hnodup c)) as [p Hp]; [auto|].
    exists p. split; [done|].
    destruct (code_table_codes root Hproper Hnodup c p Hp) as [Hpne Hpbits].
    unfold decodable. rewrite Hrm. split_and!; [|done..|].
    - by apply (code_table_inverse root Hproper Hnodup c p).
    - intros q. apply (decode_table_prefix root Hproper p q c).
      by apply (code_table_inverse root Hproper Hnodup c p). }
  rewrite remove_padding_pad.
  - cbn [mbind result_bind]. by rewrite decode_text_encode.
  - apply encode_nonempty; [done|]. intros c Hc.
    destruct (Hdec c Hc) as (p & Hp & _ & Hpne & _). eauto.
Qed.

(** * The claims *)

(** ** Round trip *)

(** C1. Round-trip law: compressing a non-empty text with a freshly built
    [HuffmanCoding] instance succeeds, and decompressing the resulting
    bytes with that same instance, whose reverse mapping the call just
    built, returns exactly the text. *)
Theorem round_trip (text : str) :
  text ≠ [] →
  ∃ byte_array table self,
    compress HuffmanCoding_init text = Ok (byte_array, table, self)
    ∧ decompress self byte_array = Ok text.
Proof.
  intros Hne.
  destruct (compress_spec HuffmanCoding_init text)
    as (root & byte_array & _ & Hproper & Hnodup & Hin & Hcompress & _ & Hbits & _);
    [done..|].
  exists byte_array, (codes (coded HuffmanCoding_init root)),
    (coded HuffmanCoding_init root).
  split; [done|].
  apply (decompress_spec _ root); [done..| |done| |done].
  - intros c. apply Hin.
  - cbn [reverse_mapping coded HuffmanCoding_init]. apply (right_id_L ∅ (∪)).
Qed.

Lemma round_trip_witness :
  py "hello world" ≠ []
  ∧ ∃ byte_array table self,
      compress HuffmanCoding_init (py "hello world") = Ok (byte_array, table, self)
      ∧ decompress self byte_array = Ok (py "hello world").
Proof.
  assert (py "hello world" ≠ []) as Hne by discriminate.
  split; [exact Hne|]. exact (round_trip (py "hello world") Hne).
Defined.

(** ** Prefix-freeness *)

(** C2. Prefix-free law: in the code table that [make_heap],
    [merge_nodes] and [make_codes] produce in a fresh instance from a
    non-empty frequency table (a dictionary: its keys are distinct), the
    code of a symbol is never a prefix of the code of a different symbol. *)
Theorem prefix_free_law (frequency : list (ascii * nat)) :
  frequency ≠ [] → NoDup frequency.*1 →
  ∃ self,
    (self ← make_heap HuffmanCoding_init frequency;
     self ← merge_nodes self;
     make_codes self) = Ok self
    ∧ ∀ c1 c2 p1 p2,
        c1 ≠ c2 → codes self !! c1 = Some p1 → codes self !! c2 = Some p2 →
        ¬ p1 `prefix_of` p2.
Proof.
  intros Hne Hkeys.
  destruct (huffman_forest_spec frequency Hne) as (root & Hforest & Hproper & Hsym).
  assert (NoDup (symbols root)) as Hnodup by by rewrite Hsym.
  rewrite make_heap_merge_nodes by done. rewrite Hforest.
  cbn [mbind result_bind]. rewrite (make_codes_tree root Hproper Hnodup).
  eexists. split; [done|]. cbn [codes HuffmanCoding_init].
  rewrite (right_id_L ∅ (∪)).
  intros c1 c2 p1 p2 Hc H1 H2 Hpre.
  by apply Hc, (code_table_prefix_free root Hproper Hnodup c1 c2 p1 p2).
Qed.

Lemma prefix_free_law_witness :
  Counter (py "abracadabra") ≠ []
  ∧ NoDup (Counter (py "abracadabra")).*1
  ∧ ∃ self,
      (self ← make_heap HuffmanCoding_init (Counter (py "abracadabra"));
       self ← merge_nodes self;
       make_codes self) = Ok self
      ∧ ∀ c1 c2 p1 p2,
          c1 ≠ c2 → codes self !! c1 = Some p1 → codes self !! c2 = Some p2 →
          ¬ p1 `prefix_of` p2.
Proof.
  assert (Counter (py "abracadabra") ≠ []) as Hne by discriminate.
  assert (NoDup (Counter (py "abracadabra")).*1) as Hkeys
    by (apply (bool_decide_unpack _); vm_compute; exact I).
  split; [exact Hne|]. split; [exact Hkeys|].
  exact (prefix_free_law (Counter (py "abracadabra")) Hne Hkeys).
Defined.

(** ** Padding *)

(** C3 (as the spec states it, for every bit string): fails at the empty
    bit string, whose padded form is the bare header and which
    [remove_padding] refuses for having no data after the padding. *)
Lemma padding_round_trip_empty :
  pad_encoded_text [] = py "00000000"
  ∧ remove_padding (pad_encoded_text [])
    = Raise (ValueError "Invalid bit string: no data after padding")
  ∧ ¬ (length (pad_encoded_text []) mod 8 = 0
       ∧ remove_padding (pad_encoded_text []) = Ok []).
Proof. split; [reflexivity|]. split; [reflexivity|]. by intros [_ ?]. Qed.

(** C3, amended. Padding correctness: the padded form of every bit string
    has a length that is a multiple of 8, and for every non-empty bit
    string [remove_padding] gives the bit string back. *)
Theorem padding_round_trip (B : str) :
  length (pad_encoded_text B) mod 8 = 0
  ∧ (B ≠ [] → remove_padding (pad_encoded_text B) = Ok B).
Proof. split; [apply pad_encoded_text_octets|apply remove_padding_pad]. Qed.

Lemma padding_round_trip_witness :
  py "1011" ≠ []
  ∧ length (pad_encoded_text (py "1011")) mod 8 = 0
  ∧ remove_padding (pad_encoded_text (py "1011")) = Ok (py "1011").
Proof.
  assert (py "1011" ≠ []) as Hne by discriminate.
  split; [exact Hne|].
  split; [exact (proj1 (padding_round_trip (py "1011")))|].
  exact (proj2 (padding_round_trip (py "1011")) Hne).
Defined.

(** C6. Artifact length: packing a raw bit string (binary digits) into
    bytes succeeds, and the artifact has [8 + len(raw) + padding] bits
    with [padding = (8 - len(raw) mod 8) mod 8], a multiple of 8 that is
    at least 8.  (Non-emptiness of the raw string is not needed.) *)
Theorem artifact_length (raw : str) :
  Forall is_bit raw →
  ∃ artifact,
    get_byte_array (pad_encoded_text raw) = Ok artifact
    ∧ let padding := (8 - length raw mod 8) mod 8 in
      length artifact * 8 = 8 + length raw + padding
      ∧ (8 + length raw + padding) mod 8 = 0
      ∧ 8 ≤ length artifact * 8.
Proof.
  intros Hbits.
  destruct (get_byte_array_octets (pad_encoded_text raw)
              (length (pad_encoded_text raw) / 8))
    as (artifact & Hbytes & Hlen & _).
  { pose proof (pad_encoded_text_octets raw). lia. }
  { rewrite length_pad_encoded_text. lia. }
  { by apply pad_encoded_text_bits. }
  exists artifact. split; [done|]. cbn zeta.
  pose proof (pad_encoded_text_octets raw) as Hoct.
  rewrite length_pad_encoded_text, padding_of_formula in Hlen, Hoct. lia.
Qed.

Lemma artifact_length_witness :
  Forall is_bit (py "1011")
  ∧ ∃ artifact,
      get_byte_array (pad_encoded_text (py "1011")) = Ok artifact
      ∧ let padding := (8 - length (py "1011") mod 8) mod 8 in
        length artifact * 8 = 8 + length (py "1011") + padding
        ∧ (8 + length (py "1011") + padding) mod 8 = 0
        ∧ 8 ≤ length artifact * 8.
Proof.
  assert (Forall is_bit (py "1011")) as Hbits
    by (apply (bool_decide_unpack _); vm_compute; exact I).
  split; [exact Hbits|]. exact (artifact_length (py "1011") Hbits).
Defined.

(** ** Rejected inputs *)

(** C5 (as the spec states it): packing an empty bit string is not
    rejected.  Padding turns it into the header alone, which packs into
    one zero byte; the guard of [get_byte_array] only sees strings that
    already carry a header. *)
Lemma pack_empty_accepted :
  pad_encoded_text [] = py "00000000"
  ∧ get_byte_array (pad_encoded_text []) = Ok [x00]
  ∧ ¬ ∃ e, get_byte_array (pad_encoded_text []) = Raise e.
Proof. split; [reflexivity|]. split; [reflexivity|]. by intros [e ?]. Qed.

(** C5, amended. [compress] raises [ValueError] on the empty text whatever
    the instance holds, [decompress] returns the empty string on the
    empty byte sequence, and [get_byte_array] raises [ValueError] on the
    empty string; none of them produces any output. *)
Theorem precondition_rejection (self : HuffmanCoding) :
  compress self [] = Raise (ValueError "Cannot compress empty text")
  ∧ decompress self [] = Ok []
  ∧ get_byte_array [] = Raise (ValueError "Cannot create byte array from empty input").
Proof. by split_and!. Qed.

(** ** Malformed streams *)

(** The padding count a bit string declares in its first 8 bits. *)
Definition declared_padding (bit_string : str) : result nat :=
  int2 (slice bit_string 0 8).

(** What [remove_padding] keeps of a bit string that declares [p] padding
    bits. *)
Definition stripped (bit_string : str) (p : nat) : str :=
  if decide (0 < p) then slice bit_string 8 (from_end bit_string p)
  else drop 8 bit_string.

(** The candidate code that the loop of [decode_text] is left with. *)
Definition leftover (self : HuffmanCoding) (encoded_text : str) : str :=
  match for_ encoded_text (decode_step self) ([], []) with
  | Ok (current_code, _) => current_code
  | _ => []
  end.

(** A call that returns or raises [ValueError], and nothing else. *)
Definition value_or_ValueError {A} (r : result A) : Prop :=
  match r with
  | Ok _ | Raise (ValueError _) => True
  | _ => False
  end.

Lemma int2_outcome (s : str) : value_or_ValueError (int2 s).
Proof. unfold int2. destruct s; [done|]. by destruct (int2_digits _ _). Qed.

Lemma remove_padding_outcome (bit_string : str) :
  value_or_ValueError (remove_padding bit_string).
Proof.
  unfold remove_padding. case_decide; [done|].
  pose proof (int2_outcome (slice bit_string 0 8)) as Hint.
  destruct (int2 _) as [p|[]|]; try done. cbn [mbind result_bind].
  case_decide; [done|]. by destruct (if decide (0 < p) then _ else _).
Qed.

Lemma decode_step_outcome (self : HuffmanCoding) (st : str * str) (bit : ascii) :
  value_or_ValueError (decode_step self st bit).
Proof.
  unfold decode_step. destruct st as [current_code decoded_text].
  case_decide; [done|]. by destruct (reverse_mapping self !! _).
Qed.

Lemma decode_loop_outcome (self : HuffmanCoding) (bits : str) (st : str * str) :
  value_or_ValueError (for_ bits (decode_step self) st).
Proof.
  revert st. induction bits as [|b bits IH]; intros st; [done|].
  rewrite for_cons. pose proof (decode_step_outcome self st b) as Hstep.
  destruct (decode_step self st b) as [st'|[]|]; try done. apply IH.
Qed.

Lemma decode_text_outcome (self : HuffmanCoding) (encoded_text : str) :
  value_or_ValueError (decode_text self encoded_text).
Proof.
  unfold decode_text. destruct encoded_text as [|b bits]; [done|].
  pose proof (decode_loop_outcome self (b :: bits) ([], [])) as Hloop.
  destruct (for_ _ _ _) as [[current_code decoded_text]|[]|]; try done.
  cbn [mbind result_bind]. by destruct current_code.
Qed.

Lemma decoding_outcome (self : HuffmanCoding) (bit_string : str) :
  value_or_ValueError
    (encoded_text ← remove_padding bit_string; decode_text self encoded_text).
Proof.
  pose proof (remove_padding_outcome bit_string) as Hpad.
  destruct (remove_padding bit_string) as [e|[]|]; try done.
  apply decode_text_outcome.
Qed.

(** [decompress] in terms of the two steps it wraps in [try]. *)
Lemma decompress_eq (self : HuffmanCoding) (byte_array : list byte) :
  decompress self byte_array
  = match (encoded_text ← remove_padding (bits_of_bytes byte_array);
           decode_text self encoded_text) with
    | Raise (ValueError _) => Ok []
    | r => r
    end.
Proof. unfold decompress. by rewrite expand_bytes. Qed.

Lemma decompress_rejects (self : HuffmanCoding) (byte_array : list byte) (msg : string) :
  (encoded_text ← remove_padding (bits_of_bytes byte_array);
   decode_text self encoded_text) = Raise (ValueError msg) →
  decompress self byte_array = Ok [].
Proof. intros H. by rewrite decompress_eq, H. Qed.

(** Each way in which a bit string can fail validation makes the decoding
    steps raise [ValueError]. *)
Lemma malformed_rejected (self : HuffmanCoding) (bit_string : str) :
  length bit_string < 8
  ∨ (∃ p, declared_padding bit_string = Ok p
          ∧ (7 < p ∨ (0 < p ∧ length bit_string < 8 + p)
             ∨ stripped bit_string p = []))
  ∨ (∃ encoded_text, remove_padding bit_string = Ok encoded_text
                     ∧ leftover self encoded_text ≠ []) →
  ∃ msg,
    (encoded_text ← remove_padding bit_string; decode_text self encoded_text)
    = Raise (ValueError msg).
Proof.
  intros [Hshort|[(p & Hp & Hbad)|(e & He & Hleft)]].
  - unfold remove_padding. rewrite decide_True by done. eauto.
  - unfold remove_padding. case_decide; [eauto|].
    unfold declared_padding in Hp. rewrite Hp. cbn [mbind result_bind].
    case_decide as Hcheck; [eauto|].
    destruct Hbad as [?|[?|Hempty]]; [lia|lia|].
    unfold stripped in Hempty. rewrite Hempty. eauto.
  - rewrite He. cbn [mbind result_bind]. unfold decode_text, leftover in *.
    destruct e as [|b e]; [eauto|].
    pose proof (decode_loop_outcome self (b :: e) ([], [])) as Hloop.
    destruct (for_ _ _ _) as [[current_code decoded_text]|[]|];
      cbn [mbind result_bind]; try done; try (by eauto).
    destruct current_code; [done|eauto].
Qed.

(** C4. Corruption rejection: when the bytes declare a padding count above
    7, or nothing is left once header and declared padding are stripped,
    or the decoding loop ends with bits that matched no code, decoding
    raises [ValueError] for the whole stream and [decompress] returns the
    empty string, never a part of the text. *)
Theorem corruption_rejection (self : HuffmanCoding) (byte_array : list byte) :
  (∃ p, declared_padding (bits_of_bytes byte_array) = Ok p ∧ 7 < p)
  ∨ (∃ p, declared_padding (bits_of_bytes byte_array) = Ok p
          ∧ stripped (bits_of_bytes byte_array) p = [])
  ∨ (∃ encoded_text,
       remove_padding (bits_of_bytes byte_array) = Ok encoded_text
       ∧ leftover self encoded_text ≠ []) →
  (∃ msg,
     (encoded_text ← remove_padding (bits_of_bytes byte_array);
      decode_text self encoded_text) = Raise (ValueError msg))
  ∧ decompress self byte_array = Ok [].
Proof.
  intros Hbad.
  destruct (malformed_rejected self (bits_of_bytes byte_array)) as [msg Hmsg].
  { destruct Hbad as [(p & Hp & Hlarge)|[(p & Hp & Hempty)|Hleft]];
      right; [left|left|by right]; exists p; auto. }
  split; [by exists msg|by eapply decompress_rejects].
Qed.

(** C10. [decompress] never raises: it always returns a string, and it
    returns the empty string whenever the expanded bit string fails
    validation (shorter than 8 bits, declared padding above 7, too short
    for the declared padding, nothing left after stripping, or bits left
    over at the end of decoding). *)
Theorem decompress_total (self : HuffmanCoding) (byte_array : list byte) :
  (∃ text, decompress self byte_array = Ok text)
  ∧ (length (bits_of_bytes byte_array) < 8
     ∨ (∃ p, declared_padding (bits_of_bytes byte_array) = Ok p
             ∧ (7 < p ∨ (0 < p ∧ length (bits_of_bytes byte_array) < 8 + p)
                ∨ stripped (bits_of_bytes byte_array) p = []))
     ∨ (∃ encoded_text,
          remove_padding (bits_of_bytes byte_array) = Ok encoded_text
          ∧ leftover self encoded_text ≠ []) →
     decompress self byte_array = Ok []).
Proof.
  split.
  - rewrite decompress_eq.
    pose proof (decoding_outcome self (bits_of_bytes byte_array)) as Hout.
    destruct (_ ≫= _) as [text|[]|]; try done; eauto.
  - intros Hbad.
    destruct (malformed_rejected self (bits_of_bytes byte_array) Hbad) as [msg Hmsg].
    by eapply decompress_rejects.
Qed.

(** An instance whose dictionaries hold the single code [00] for [a]. *)
Definition sample_coding : HuffmanCoding :=
  {| heap := [];
     codes := {[ "a"%char := py "00" ]};
     reverse_mapping := {[ py "00" := "a"%char ]} |}.

Lemma corruption_rejection_witness :
  ((∃ p, declared_padding (bits_of_bytes [x08]) = Ok p ∧ 7 < p)
   ∧ decompress sample_coding [x08] = Ok [])
  ∧ ((∃ p, declared_padding (bits_of_bytes [x00]) = Ok p
           ∧ stripped (bits_of_bytes [x00]) p = [])
     ∧ decompress sample_coding [x00] = Ok [])
  ∧ ((∃ encoded_text,
        remove_padding (bits_of_bytes [x00; x01]) = Ok encoded_text
        ∧ leftover sample_coding encoded_text ≠ [])
     ∧ decompress sample_coding [x00; x01] = Ok []).
Proof.
  assert (∃ p, declared_padding (bits_of_bytes [x08]) = Ok p ∧ 7 < p) as H1.
  { exists 8. split; [reflexivity|lia]. }
  assert (∃ p, declared_padding (bits_of_bytes [x00]) = Ok p
               ∧ stripped (bits_of_bytes [x00]) p = []) as H2.
  { exists 0. split; reflexivity. }
  assert (∃ encoded_text,
            remove_padding (bits_of_bytes [x00; x01]) = Ok encoded_text
            ∧ leftover sample_coding encoded_text ≠ []) as H3.
  { exists (py "00000001"). split; [reflexivity|]. vm_compute. discriminate. }
  split; [|split].
  - split; [exact H1|].
    exact (proj2 (corruption_rejection sample_coding [x08] (or_introl H1))).
  - split; [exact H2|].
    exact (proj2 (corruption_rejection sample_coding [x00]
                    (or_intror (or_introl H2)))).
  - split; [exact H3|].
    exact (proj2 (corruption_rejection sample_coding [x00; x01]
                    (or_intror (or_intror H3)))).
Defined.

Lemma decompress_total_witness :
  length (bits_of_bytes []) < 8
  ∧ (∃ text, decompress sample_coding [] = Ok text)
  ∧ decompress sample_coding [] = Ok [].
Proof.
  assert (length (bits_of_bytes []) < 8) as Hshort by (simpl; lia).
  split; [exact Hshort|].
  split; [exact (proj1 (decompress_total sample_coding []))|].
  exact (proj2 (decompress_total sample_coding []) (or_introl Hshort)).
Defined.

(** ** Singleton alphabet *)

Lemma Counter_loop_replicate (a : ascii) (n k : nat) :
  fold_left (λ d c, counter_incr c d) (replicate n a) [(a, k)] = [(a, k + n)].
Proof.
  revert k. induction n as [|n IH]; intros k; simpl.
  - by rewrite Nat.add_0_r.
  - rewrite decide_True by done. rewrite IH. do 2 f_equal. lia.
Qed.

Lemma Counter_replicate (a : ascii) (n : nat) :
  Counter (replicate (S n) a) = [(a, S n)].
Proof. unfold Counter. simpl. by rewrite Counter_loop_replicate. Qed.

Lemma huffman_forest_singleton (a : ascii) (k : nat) :
  huffman_forest [(a, k)] = Ok [HuffmanNode_init (Some a) k].
Proof. reflexivity. Qed.

Lemma code_table_leaf (a : ascii) (k : nat) :
  code_table (HuffmanNode_init (Some a) k) = {[ a := py "0" ]}.
Proof. unfold code_table. simpl. apply insert_empty. Qed.

Lemma decode_table_leaf (a : ascii) (k : nat) :
  decode_table (HuffmanNode_init (Some a) k) = {[ py "0" := a ]}.
Proof. unfold decode_table. simpl. apply insert_empty. Qed.

(** C7. Singleton alphabet: compressing a non-empty text made of one
    repeated symbol [a] yields the code table [{a: "0"}], and
    decompressing the artifact with the inverse [{"0": a}] of that table
    gives the text back. *)
Theorem singleton_alphabet (a : ascii) (n : nat) :
  ∃ byte_array self,
    compress HuffmanCoding_init (replicate (S n) a)
    = Ok (byte_array, {[ a := py "0" ]}, self)
    ∧ codes self = {[ a := py "0" ]}
    ∧ reverse_mapping self = {[ py "0" := a ]}
    ∧ decompress
        {| heap := []; codes := {[ a := py "0" ]};
           reverse_mapping := {[ py "0" := a ]} |}
        byte_array
      = Ok (replicate (S n) a).
Proof.
  destruct (compress_spec HuffmanCoding_init (replicate (S n) a))
    as (root & byte_array & Hforest & Hproper & Hnodup & Hin & Hcompress & _ & Hbits & _);
    [done..|].
  rewrite Counter_replicate, huffman_forest_singleton in Hforest.
  injection Hforest as <-.
  assert (codes (coded HuffmanCoding_init (HuffmanNode_init (Some a) (S n)))
          = {[ a := py "0" ]}) as Hcodes.
  { cbn [codes coded HuffmanCoding_init].
    by rewrite (right_id_L ∅ (∪)), code_table_leaf. }
  rewrite Hcodes in Hcompress.
  exists byte_array, (coded HuffmanCoding_init (HuffmanNode_init (Some a) (S n))).
  split_and!; [done..| |].
  - cbn [reverse_mapping coded HuffmanCoding_init].
    by rewrite (right_id_L ∅ (∪)), decode_table_leaf.
  - apply (decompress_spec _ (HuffmanNode_init (Some a) (S n))); try done.
    intros c. apply Hin.
Qed.

(** ** Repeated calls on one instance *)

(** A second [compress] call on the same instance: the tree is built again
    from the text alone, and its entries are written over the
    dictionaries the first call left. *)
Lemma compress_again (self : HuffmanCoding) (text : str)
    (root : HuffmanNode) (byte_array : list byte) :
  heap self = [] → text ≠ [] →
  huffman_forest (Counter text) = Ok [root] →
  get_byte_array (pad_encoded_text (encode (code_table root) text)) = Ok byte_array →
  compress self text = Ok (byte_array, codes (coded self root), coded self root).
Proof.
  intros Hheap Hne Hforest Hbytes.
  destruct (compress_spec self text Hheap Hne)
    as (root' & byte_array' & Hforest' & _ & _ & _ & Hcompress & Hbytes' & _).
  rewrite Hforest in Hforest'. injection Hforest' as <-.
  rewrite Hbytes in Hbytes'. by injection Hbytes' as <-.
Qed.

Lemma coded_coded (self : HuffmanCoding) (root : HuffmanNode) :
  coded (coded self root) root = coded self root.
Proof.
  unfold coded. cbn [codes reverse_mapping].
  by rewrite !(assoc_L (∪)), !(idemp_L (∪)).
Qed.

(** C8. Tie-break determinism: compressing a non-empty text again, on
    the instance that has just compressed it, returns the same bytes and
    the same code table and leaves the instance as it was; no choice
    between nodes of equal frequency depends on anything but the text. *)
Theorem tie_break_determinism (text : str) :
  text ≠ [] →
  ∃ byte_array table self,
    compress HuffmanCoding_init text = Ok (byte_array, table, self)
    ∧ compress self text = Ok (byte_array, table, self).
Proof.
  intros Hne.
  destruct (compress_spec HuffmanCoding_init text)
    as (root & byte_array & Hforest & _ & _ & _ & Hcompress & Hbytes & _);
    [done..|].
  exists byte_array, (codes (coded HuffmanCoding_init root)),
    (coded HuffmanCoding_init root).
  split; [done|].
  rewrite (compress_again _ text root byte_array); [|done..].
  by rewrite coded_coded.
Qed.

Lemma tie_break_determinism_witness :
  py "abab" ≠ []
  ∧ ∃ byte_array table self,
      compress HuffmanCoding_init (py "abab") = Ok (byte_array, table, self)
      ∧ compress self (py "abab") = Ok (byte_array, table, self).
Proof.
  assert (py "abab" ≠ []) as Hne by discriminate.
  split; [exact Hne|]. exact (tie_break_determinism (py "abab") Hne).
Defined.

(** Two [compress] calls in a row on one fresh instance; the outcome of
    the second. *)
Definition compress_then (t1 t2 : str)
    : result (list byte * gmap ascii str * HuffmanCoding) :=
  '(_, _, self) ← compress HuffmanCoding_init t1;
  compress self t2.

(** C9 (as the spec states it): fails.  After compressing [ab], compressing
    [c] on the same instance returns a table that still holds the codes of
    [a] and [b], neither of which occurs in [c]. *)
Lemma compress_keeps_earlier_codes :
  ∃ b2 table2 self2,
    compress_then (py "ab") (py "c") = Ok (b2, table2, self2)
    ∧ table2 = {[ "a"%char := py "0"; "b"%char := py "1"; "c"%char := py "0" ]}
    ∧ is_Some (table2 !! "a"%char)
    ∧ ("a"%char ∉ py "c").
Proof.
  destruct (compress_then (py "ab") (py "c")) as [[[b2 table2] self2]| |] eqn:H;
    vm_compute in H; try discriminate H.
  injection H as <- <- <-.
  do 3 eexists. split; [reflexivity|]. split.
  { vm_compute. reflexivity. }
  split.
  { vm_compute. eauto. }
  by intros ?%list_elem_of_singleton.
Qed.

(** The entries that stay behind also stay in the reverse mapping, where
    they can shadow the codes of a later text: after compressing [ab], the
    bytes that the same instance produces for [abc] do not decode to
    [abc] on it, because the old code [1] of [b] is a prefix of the new
    codes of [a] and [b]. *)
Lemma reused_instance_decodes_wrongly :
  ∃ byte_array table self,
    compress_then (py "ab") (py "abc") = Ok (byte_array, table, self)
    ∧ decompress self byte_array = Ok (py "bcbbc").
Proof.
  destruct (compress_then (py "ab") (py "abc")) as [[[b table] self]| |] eqn:H;
    vm_compute in H; try discriminate H.
  injection H as <- <- <-.
  do 3 eexists. split; [reflexivity|]. vm_compute. reflexivity.
Qed.

(** C9, amended. [compress] builds the frequency table and the tree from
    scratch but does not clear the dictionaries: on a fresh instance the
    table has exactly one entry per distinct symbol of the text; after
    [compress(t1)] then [compress(t2)] on one instance, the table has one
    entry for every symbol of [t1] or [t2], the bytes and the entries of
    the symbols of [t2] are those a fresh instance gives for [t2], and
    the other entries are those of the first call. *)
Theorem compress_accumulates (t1 t2 : str) :
  t1 ≠ [] → t2 ≠ [] →
  ∃ b1 table1 self1 b2 table2 self2 fresh2 self2',
    compress HuffmanCoding_init t1 = Ok (b1, table1, self1)
    ∧ compress self1 t2 = Ok (b2, table2, self2)
    ∧ compress HuffmanCoding_init t2 = Ok (b2, fresh2, self2')
    ∧ (∀ c, is_Some (table1 !! c) ↔ c ∈ t1)
    ∧ (∀ c, is_Some (table2 !! c) ↔ c ∈ t1 ∨ c ∈ t2)
    ∧ (∀ c, c ∈ t2 → table2 !! c = fresh2 !! c)
    ∧ (∀ c, c ∉ t2 → table2 !! c = table1 !! c).
Proof.
  intros Hne1 Hne2.
  destruct (compress_spec HuffmanCoding_init t1)
    as (root1 & b1 & _ & Hproper1 & Hnodup1 & Hin1 & Hcompress1 & _);
    [done..|].
  destruct (compress_spec HuffmanCoding_init t2)
    as (root2 & b2 & Hforest2 & Hproper2 & Hnodup2 & Hin2 & Hcompress2 & Hbytes2 & _);
    [done..|].
  set (self1 := coded HuffmanCoding_init root1) in *.
  exists b1, (codes self1), self1, b2, (codes (coded self1 root2)),
    (coded self1 root2), (codes (coded HuffmanCoding_init root2)),
    (coded HuffmanCoding_init root2).
  assert (∀ c, is_Some (code_table root1 !! c) ↔ c ∈ t1) as Hdom1
    by (intros c; by rewrite code_table_dom, Hin1).
  assert (∀ c, is_Some (code_table root2 !! c) ↔ c ∈ t2) as Hdom2
    by (intros c; by rewrite code_table_dom, Hin2).
  split_and!; [done|by apply compress_again|done|..];
    subst self1; cbn [codes coded HuffmanCoding_init];
    rewrite ?(right_id_L ∅ (∪)); intros c.
  - apply Hdom1.
  - rewrite lookup_union_is_Some, Hdom1, Hdom2. tauto.
  - intros Hc. apply lookup_union_l'. by apply Hdom2.
  - intros Hc. apply lookup_union_r, eq_None_not_Some. by rewrite Hdom2.
Qed.

Lemma compress_accumulates_witness :
  py "ab" ≠ [] ∧ py "c" ≠ []
  ∧ ∃ b1 table1 self1 b2 table2 self2 fresh2 self2',
      compress HuffmanCoding_init (py "ab") = Ok (b1, table1, self1)
      ∧ compress self1 (py "c") = Ok (b2, table2, self2)
      ∧ compress HuffmanCoding_init (py "c") = Ok (b2, fresh2, self2')
      ∧ (∀ c, is_Some (table1 !! c) ↔ c ∈ py "ab")
      ∧ (∀ c, is_Some (table2 !! c) ↔ c ∈ py "ab" ∨ c ∈ py "c")
      ∧ (∀ c, c ∈ py "c" → table2 !! c = fresh2 !! c)
      ∧ (∀ c, c ∉ py "c" → table2 !! c = table1 !! c).
Proof.
  assert (py "ab" ≠ []) as H1 by discriminate.
  assert (py "c" ≠ []) as H2 by discriminate.
  split; [exact H1|]. split; [exact H2|].
  exact (compress_accumulates (py "ab") (py "c") H1 H2).
Defined.

(** * Further properties of the module *)

(** ** [make_frequency_dict] *)

(** How often a symbol occurs in a text. *)
Definition occurrences (c : ascii) (text : str) : nat :=
  length (filter (λ x, x = c) text).

Lemma counter_incr_lookup (c k : ascii) (d : list (ascii * nat)) :
  (list_to_map (counter_incr c d) : gmap ascii nat) !! k
  = if decide (k = c)
    then Some (S (default 0 ((list_to_map d : gmap ascii nat) !! c)))
    else (list_to_map d : gmap ascii nat) !! k.
Proof.
  induction d as [|[k' n] d IH]; simpl.
  - rewrite lookup_insert. destruct (decide (c = k)), (decide (k = c));
      by simplify_eq.
  - destruct (decide (k' = c)) as [->|Hk']; simpl.
    + rewrite !lookup_insert. rewrite (decide_True (P := c = c)) by done.
      destruct (decide (c = k)), (decide (k = c)); by simplify_eq.
    + rewrite !lookup_insert, IH. rewrite (decide_False (P := k' = c)) by done.
      destruct (decide (k' = k)), (decide (k = c)); by simplify_eq.
Qed.

Lemma counter_incr_sum (c : ascii) (d : list (ascii * nat)) :
  sum_list (counter_incr c d).*2 = S (sum_list d.*2).
Proof.
  induction d as [|[k n] d IH]; [done|].
  cbn [counter_incr]. case_decide; rewrite !fmap_cons; cbn [snd sum_list_with id];
    [|rewrite IH]; unfold id; lia.
Qed.

Lemma Counter_loop_counts (text : str) (d : list (ascii * nat)) (k : ascii) :
  (list_to_map (fold_left (λ d c, counter_incr c d) text d) : gmap ascii nat) !! k
  = match (list_to_map d : gmap ascii nat) !! k with
    | Some m => Some (m + occurrences k text)
    | None => if decide (occurrences k text = 0) then None
              else Some (occurrences k text)
    end.
Proof.
  revert d. induction text as [|c text IH]; intros d; simpl.
  - unfold occurrences. simpl. destruct (_ !! k); [f_equal; lia|done].
  - rewrite IH, counter_incr_lookup. unfold occurrences.
    destruct (decide (k = c)) as [->|Hk].
    + rewrite filter_cons_True by done. simpl.
      destruct (_ !! c); simpl; f_equal; lia.
    + rewrite filter_cons_False by congruence.
      by destruct (_ !! k).
Qed.

Lemma Counter_loop_sum (text : str) (d : list (ascii * nat)) :
  sum_list (fold_left (λ d c, counter_incr c d) text d).*2
  = sum_list d.*2 + length text.
Proof.
  revert d. induction text as [|c text IH]; intros d; simpl; [lia|].
  rewrite IH, counter_incr_sum. lia.
Qed.

(** The frequency table lists each symbol of the text once, with the
    number of times it occurs, and the counts add up to the length of the
    text. *)
Theorem frequency_counts (text : str) :
  NoDup (make_frequency_dict text).*1
  ∧ (∀ c n, (c, n) ∈ make_frequency_dict text
            ↔ n = occurrences c text ∧ 0 < n)
  ∧ sum_list (make_frequency_dict text).*2 = length text.
Proof.
  unfold make_frequency_dict. split_and!.
  - apply Counter_NoDup.
  - intros c n.
    rewrite (elem_of_list_to_map (M := gmap ascii) _ _ _ (Counter_NoDup text)).
    unfold Counter. rewrite Counter_loop_counts. simpl. rewrite lookup_empty.
    case_decide as Hocc; split.
    + done.
    + intros [-> Hpos]. lia.
    + intros [= <-]. split; [done|lia].
    + by intros [-> _].
  - unfold Counter. by rewrite Counter_loop_sum.
Qed.

(** ** The heap order of [heapq]

    A list is heap-ordered when no node is less than its parent, the
    parent of index [i] being [(i - 1) / 2].  [_siftdown] and [_siftup]
    move a hole through the list; while they run, the order holds on all
    edges that do not touch the hole. *)

Definition ordered_at (h : list HuffmanNode) (i : nat) : Prop :=
  ∀ x y, h !! i = Some x → h !! ((i - 1) / 2) = Some y → freq y ≤ freq x.

Definition is_heap (h : list HuffmanNode) : Prop :=
  ∀ i, 0 < i → ordered_at h i.

(** Heap order away from [pos]: every edge that does not touch [pos] is
    ordered, and the parent of [pos] is not above the children of [pos]. *)
Definition heap_but (h : list HuffmanNode) (pos : nat) : Prop :=
  (∀ i, 0 < i → i ≠ pos → (i - 1) / 2 ≠ pos → ordered_at h i)
  ∧ (0 < pos → ∀ i x y, 0 < i → (i - 1) / 2 = pos →
       h !! i = Some x → h !! ((pos - 1) / 2) = Some y → freq y ≤ freq x).

(** [x] may sit at [pos]: it is not above the parent of [pos] and not
    below its children. *)
Definition fits (h : list HuffmanNode) (pos : nat) (x : HuffmanNode) : Prop :=
  (0 < pos → ∀ y, h !! ((pos - 1) / 2) = Some y → freq y ≤ freq x)
  ∧ (∀ i z, 0 < i → (i - 1) / 2 = pos → h !! i = Some z → freq x ≤ freq z).

Lemma node_lt_spec (x y : HuffmanNode) : node_lt x y = true ↔ freq x < freq y.
Proof. unfold node_lt. apply bool_decide_eq_true. Qed.

Lemma heap_but_fill (h : list HuffmanNode) (pos : nat) (x : HuffmanNode) :
  heap_but h pos → fits h pos x → is_heap (<[pos:=x]> h).
Proof.
  intros [Hedges _] [Hup Hdown] i Hi a b Ha Hb.
  destruct (decide (i = pos)) as [->|Hne].
  - apply list_lookup_insert_Some in Ha as [(_ & <- & _)|[? _]]; [|done].
    rewrite list_lookup_insert_ne in Hb by lia. by apply Hup.
  - rewrite list_lookup_insert_ne in Ha by done.
    destruct (decide ((i - 1) / 2 = pos)) as [Hpar|Hpar].
    + rewrite Hpar in Hb.
      apply list_lookup_insert_Some in Hb as [(_ & <- & _)|[? _]]; [|done].
      by apply (Hdown i).
    + rewrite list_lookup_insert_ne in Hb by done. by apply (Hedges i).
Qed.

Lemma is_heap_heap_but (h : list HuffmanNode) (pos : nat) :
  is_heap h → heap_but h pos.
Proof.
  intros Hheap. split.
  - intros i Hi _ _. by apply Hheap.
  - intros Hpos i x y Hi Hpar Hx Hy.
    destruct (lookup_lt_is_Some_2 h pos) as [z Hz].
    { apply lookup_lt_Some in Hx. lia. }
    etrans; [apply (Hheap pos Hpos z y Hz Hy)|].
    apply (Hheap i Hi x z Hx). by rewrite Hpar.
Qed.

Lemma heap_but_insert (h : list HuffmanNode) (pos : nat) (x : HuffmanNode) :
  heap_but h pos → heap_but (<[pos:=x]> h) pos.
Proof.
  intros [Hedges Hgrand]. split.
  - intros i Hi Hne Hpar a b Ha Hb.
    rewrite list_lookup_insert_ne in Ha, Hb by done. by apply (Hedges i).
  - intros Hpos i a b Hi Hpar Ha Hb.
    rewrite list_lookup_insert_ne in Ha, Hb by lia. by apply (Hgrand Hpos i).
Qed.

Lemma fits_insert (h : list HuffmanNode) (pos : nat) (x y : HuffmanNode) :
  fits h pos x → fits (<[pos:=y]> h) pos x.
Proof.
  intros [Hup Hdown]. split.
  - intros Hpos z Hz. rewrite list_lookup_insert_ne in Hz by lia. by apply Hup.
  - intros i z Hi Hpar Hz. rewrite list_lookup_insert_ne in Hz by lia.
    by apply (Hdown i).
Qed.

Lemma is_heap_root (h : list HuffmanNode) (r : HuffmanNode) :
  is_heap h → h !! 0 = Some r → ∀ y, y ∈ h → freq r ≤ freq y.
Proof.
  intros Hheap Hr y [i Hy]%list_elem_of_lookup. revert y Hy.
  induction (lt_wf i) as [i _ IH]; intros y Hy.
  destruct (decide (i = 0)) as [->|Hi]; [by simplify_eq|].
  destruct (lookup_lt_is_Some_2 h ((i - 1) / 2)) as [z Hz].
  { apply lookup_lt_Some in Hy. lia. }
  etrans; [apply (IH ((i - 1) / 2)); [lia|done]|].
  apply (Hheap i); [lia|done..].
Qed.

Lemma is_heap_app (h : list HuffmanNode) (x : HuffmanNode) :
  is_heap (h ++ [x]) → is_heap h.
Proof.
  intros Hheap i Hi a b Ha Hb.
  apply (Hheap i Hi); by apply lookup_app_l_Some.
Qed.

Module heapq_order.
Import heapq.

Lemma _siftdown_loop_heap fuel (h : list HuffmanNode) newitem pos :
  pos < length h → pos ≤ fuel → heap_but h pos →
  (∀ i z, 0 < i → (i - 1) / 2 = pos → h !! i = Some z → freq newitem ≤ freq z) →
  ∃ h' pos',
    _siftdown_loop fuel h newitem 0 pos = Ok (h', pos')
    ∧ pos' < length h' ∧ heap_but h' pos' ∧ fits h' pos' newitem.
Proof.
  revert h pos. induction fuel as [|fuel IH]; intros h pos Hpos Hfuel Hbut Hkids.
  - cbn [_siftdown_loop]. rewrite decide_False by lia.
    exists h, pos. split_and!; [done..|]. split; [lia|done].
  - cbn [_siftdown_loop]. case_decide as Hlt.
    2:{ exists h, pos. split_and!; [done..|]. split; [lia|done]. }
    destruct (getitem_lt h ((pos - 1) / 2)) as (parent & Hparent & ->); [lia|].
    cbn [mbind result_bind].
    destruct (node_lt newitem parent) eqn:Hcmp.
    2:{ exists h, pos. split_and!; [done..|]. split; [|done].
        intros _ y Hy. simplify_eq.
        apply not_true_iff_false in Hcmp. rewrite node_lt_spec in Hcmp. lia. }
    apply node_lt_spec in Hcmp.
    rewrite setitem_lt by done. cbn [mbind result_bind].
    destruct Hbut as [Hedges Hgrand].
    apply IH; [rewrite length_insert; lia|lia| |].
    + split.
      * intros i Hi Hne Hpar a b Ha Hb.
        assert (i ≠ pos) as Hipos by (intros ->; done).
        rewrite list_lookup_insert_ne in Ha by done.
        destruct (decide ((i - 1) / 2 = pos)) as [Hp|Hp].
        -- rewrite Hp in Hb.
           apply list_lookup_insert_Some in Hb as [(_ & <- & _)|[? _]]; [|done].
           by apply (Hgrand Hlt i).
        -- rewrite list_lookup_insert_ne in Hb by done. by apply (Hedges i).
      * intros Hpos2 i x y Hi Hpar Hx Hy.
        rewrite list_lookup_insert_ne in Hy by lia.
        assert (freq y ≤ freq parent) as Hyp.
        { apply (Hedges ((pos - 1) / 2)); [done|lia|lia|done..]. }
        destruct (decide (i = pos)) as [->|Hipos].
        -- apply list_lookup_insert_Some in Hx as [(_ & <- & _)|[? _]]; done.
        -- rewrite list_lookup_insert_ne in Hx by done.
           etrans; [exact Hyp|].
           apply (Hedges i); [done|done|lia|done|by rewrite Hpar].
    + intros i z Hi Hpar Hz.
      destruct (decide (i = pos)) as [->|Hipos].
      * apply list_lookup_insert_Some in Hz as [(_ & <- & _)|[? _]]; [lia|done].
      * rewrite list_lookup_insert_ne in Hz by done.
        assert (freq parent ≤ freq z); [|lia].
        apply (Hedges i); [done|done|lia|done|by rewrite Hpar].
Qed.

Lemma _siftdown_heap (h : list HuffmanNode) pos :
  pos < length h → length h ≤ 2 * pos + 1 → heap_but h pos →
  ∃ h', _siftdown h 0 pos = Ok h' ∧ is_heap h'.
Proof.
  intros Hpos Hleaf Hbut. unfold _siftdown.
  destruct (getitem_lt h pos Hpos) as (newitem & Hnew & ->).
  cbn [mbind result_bind].
  destruct (_siftdown_loop_heap pos h newitem pos)
    as (h' & pos' & -> & Hlen & Hbut' & Hfits); [done..| |].
  { intros i z Hi Hpar Hz. apply lookup_lt_Some in Hz. lia. }
  cbn [mbind result_bind]. rewrite setitem_lt by done.
  eexists. split; [done|]. by apply heap_but_fill.
Qed.

(** The child that [_siftup] moves up: one that is not above the other. *)
Lemma smaller_child (h : list HuffmanNode) (endpos childpos : nat) :
  endpos = length h → childpos < endpos →
  ∃ c a,
    (if decide (childpos + 1 < endpos)
     then c ← getitem h childpos;
          r ← getitem h (childpos + 1);
          Ok (if negb (node_lt c r) then childpos + 1 else childpos)
     else Ok childpos) = Ok c
    ∧ (c = childpos ∨ c = childpos + 1) ∧ h !! c = Some a
    ∧ ∀ o z, o = childpos ∨ o = childpos + 1 → h !! o = Some z →
        freq a ≤ freq z.
Proof.
  intros -> Hchild.
  destruct (getitem_lt h childpos) as (a & Ha & Hga); [lia|].
  case_decide as Hr.
  - destruct (getitem_lt h (childpos + 1)) as (b & Hb & Hgb); [lia|].
    rewrite Hga, Hgb. cbn [mbind result_bind].
    destruct (node_lt a b) eqn:Hcmp; cbn [negb].
    + apply node_lt_spec in Hcmp.
      exists childpos, a. split_and!; [done|by left|done|].
      intros o z [->| ->] Hz; simplify_eq; lia.
    + apply not_true_iff_false in Hcmp. rewrite node_lt_spec in Hcmp.
      exists (childpos + 1), b. split_and!; [done|by right|done|].
      intros o z [->| ->] Hz; simplify_eq; lia.
  - exists childpos, a. split_and!; [done|by left|done|].
    intros o z [->| ->] Hz; [by simplify_eq|].
    apply lookup_lt_Some in Hz. lia.
Qed.

Lemma _siftup_loop_heap fuel (h : list HuffmanNode) endpos pos :
  endpos = length h → pos < length h → endpos ≤ fuel + (2 * pos + 1) →
  heap_but h pos →
  ∃ h' pos',
    _siftup_loop fuel h endpos pos (2 * pos + 1) = Ok (h', pos')
    ∧ pos' < length h' ∧ length h' ≤ 2 * pos' + 1 ∧ heap_but h' pos'.
Proof.
  revert h pos. induction fuel as [|fuel IH]; intros h pos Hend Hpos Hfuel Hbut.
  - cbn [_siftup_loop]. rewrite decide_False by lia.
    exists h, pos. split_and!; [done|done|lia|done].
  - cbn [_siftup_loop]. case_decide as Hlt.
    2:{ exists h, pos. split_and!; [done|done|lia|done]. }
    destruct (smaller_child h endpos (2 * pos + 1) Hend Hlt)
      as (c & a & -> & Hc & Ha & Hmin).
    cbn [mbind result_bind]. unfold getitem at 1. rewrite Ha.
    cbn [mbind result_bind]. rewrite setitem_lt by done.
    cbn [mbind result_bind].
    assert (0 < c ∧ (c - 1) / 2 = pos ∧ c < length h) as (Hc0 & Hcpar & Hclen).
    { apply lookup_lt_Some in Ha. lia. }
    destruct Hbut as [Hedges Hgrand].
    apply IH; [by rewrite length_insert|rewrite length_insert; lia|lia|].
    split.
    + intros i Hi Hne Hpar x y Hx Hy.
      destruct (decide (i = pos)) as [->|Hipos].
      * apply list_lookup_insert_Some in Hx as [(_ & <- & _)|[? _]]; [|done].
        rewrite list_lookup_insert_ne in Hy by lia.
        by apply (Hgrand Hi c).
      * rewrite list_lookup_insert_ne in Hx by done.
        destruct (decide ((i - 1) / 2 = pos)) as [Hp|Hp].
        -- rewrite Hp in Hy.
           apply list_lookup_insert_Some in Hy as [(_ & <- & _)|[? _]]; [|done].
           apply (Hmin i); [lia|done].
        -- rewrite list_lookup_insert_ne in Hy by done. by apply (Hedges i).
    + intros _ i x y Hi Hpar Hx Hy. rewrite Hcpar in Hy.
      apply list_lookup_insert_Some in Hy as [(_ & <- & _)|[? _]]; [|done].
      rewrite list_lookup_insert_ne in Hx by lia.
      apply (Hedges i); [done|lia|lia|done|by rewrite Hpar].
Qed.

Lemma _siftup_heap (h : list HuffmanNode) :
  h ≠ [] → heap_but h 0 → ∃ h', _siftup h 0 = Ok h' ∧ is_heap h'.
Proof.
  intros Hne Hbut. unfold _siftup.
  assert (0 < length h) as Hlen by (destruct h; [done|simpl; lia]).
  destruct (getitem_lt h 0 Hlen) as (newitem & Hnew & ->).
  cbn [mbind result_bind].
  destruct (_siftup_loop_heap (length h) h (length h) 0)
    as (h1 & p1 & -> & Hp1 & Hleaf & Hbut1); [done|done|lia|done|].
  cbn [mbind result_bind]. rewrite setitem_lt by done.
  cbn [mbind result_bind].
  apply _siftdown_heap; [by rewrite length_insert|by rewrite length_insert|].
  by apply heap_but_insert.
Qed.

(** Pushing keeps the heap order. *)
Lemma heappush_heap (h : list HuffmanNode) item :
  is_heap h → ∃ h', heappush h item = Ok h' ∧ is_heap h' ∧ h' ≡ₚ item :: h.
Proof.
  intros Hheap.
  destruct (heapq_facts.heappush_Permutation h item) as (h' & Hpush & Hperm).
  exists h'. split_and!; [done| |done].
  unfold heappush in Hpush.
  destruct (_siftdown_heap (h ++ [item]) (length (h ++ [item]) - 1))
    as (h'' & Hsift & Hheap'').
  - rewrite length_app. simpl. lia.
  - rewrite length_app. simpl. lia.
  - rewrite length_app. simpl. replace (length h + 1 - 1) with (length h) by lia.
    split.
    + intros i Hi Hne Hpar x y Hx Hy.
      apply lookup_app_Some in Hx as [Hx|[Hge Hx]].
      * apply lookup_app_Some in Hy as [Hy|[Hge _]]; [by apply (Hheap i)|].
        apply lookup_lt_Some in Hx. lia.
      * apply list_lookup_singleton_Some in Hx as [Hx _]. lia.
    + intros _ i x y Hi Hpar Hx _. apply lookup_lt_Some in Hx.
      rewrite length_app in Hx. simpl in Hx. lia.
  - rewrite Hpush in Hsift. by injection Hsift as <-.
Qed.

(** Popping keeps the heap order and hands out a node of least
    frequency. *)
Lemma heappop_heap (h : list HuffmanNode) :
  is_heap h → h ≠ [] →
  ∃ item h',
    heappop h = Ok (item, h') ∧ is_heap h' ∧ h ≡ₚ item :: h'
    ∧ ∀ y, y ∈ h' → freq item ≤ freq y.
Proof.
  intros Hheap Hne.
  destruct (heapq_facts.heappop_Permutation h Hne) as (item & h' & Hpop & Hperm).
  exists item, h'. split; [done|].
  unfold heappop, list_pop in Hpop.
  destruct (last h) as [lastelt|] eqn:Hlast; [|done].
  apply last_Some in Hlast as [rest ->]. rewrite removelast_last in Hpop.
  cbn [mbind result_bind] in Hpop.
  destruct rest as [|returnitem rest].
  { injection Hpop as <- <-. split_and!; [|done|by intros y ?%elem_of_nil].
    intros i Hi x y Hx. by rewrite lookup_nil in Hx. }
  cbn [getitem lookup list_lookup mbind result_bind] in Hpop.
  rewrite setitem_lt in Hpop by (simpl; lia). cbn [mbind result_bind] in Hpop.
  destruct (_siftup_heap (<[0:=lastelt]> (returnitem :: rest)))
    as (h'' & Hsift & Hheap''); [done| |].
  { split; [|lia]. intros i Hi _ Hpar x y Hx Hy.
    rewrite list_lookup_insert_ne in Hx, Hy by lia.
    apply (is_heap_app _ _ Hheap i); done. }
  rewrite Hsift in Hpop. cbn [mbind result_bind] in Hpop.
  injection Hpop as <- <-. split_and!; [done..|].
  intros y Hy. apply (is_heap_root _ returnitem Hheap); [done|].
  rewrite Hperm. by right.
Qed.

End heapq_order.

(** ** [make_heap] and [merge_nodes] *)

(** The leaf that [make_heap] creates for an entry of the frequency
    table. *)
Definition leaf_of (entry : ascii * nat) : HuffmanNode :=
  HuffmanNode_init (Some entry.1) entry.2.

Lemma make_heap_loop_heap (frequency : list (ascii * nat)) (h : list HuffmanNode) :
  is_heap h →
  ∃ h',
    for_ frequency
      (λ h '(c, f), heapq.heappush h (HuffmanNode_init (Some c) f))
      h = Ok h'
    ∧ is_heap h' ∧ h' ≡ₚ h ++ (leaf_of <$> frequency).
Proof.
  revert h. induction frequency as [|[c f] frequency IH]; intros h Hh.
  - exists h. simpl. by rewrite app_nil_r.
  - rewrite for_cons. cbn beta iota.
    destruct (heapq_order.heappush_heap h (HuffmanNode_init (Some c) f) Hh)
      as (h1 & -> & Hheap1 & Hperm1).
    cbn [mbind result_bind].
    destruct (IH h1 Hheap1) as (h' & Hfor & Hheap' & Hperm').
    exists h'. split_and!; [exact Hfor|done|].
    rewrite Hperm', Hperm1, fmap_cons. simpl.
    by rewrite <- Permutation_middle.
Qed.

(** [make_heap] adds one leaf per entry of the frequency table to the
    heap, keeps the heap order, and leaves the dictionaries alone. *)
Theorem make_heap_spec (self : HuffmanCoding) (frequency : list (ascii * nat)) :
  is_heap (heap self) →
  ∃ h,
    make_heap self frequency = Ok (set_heap self h)
    ∧ is_heap h
    ∧ h ≡ₚ heap self ++ (leaf_of <$> frequency).
Proof.
  intros Hheap. unfold make_heap.
  destruct (make_heap_loop_heap frequency (heap self) Hheap)
    as (h & Hfor & Hheap' & Hperm).
  exists h. split_and!; [|done..]. by rewrite Hfor.
Qed.

Lemma is_heap_nil : is_heap [].
Proof. intros i _ x y Hx. by rewrite lookup_nil in Hx. Qed.

Lemma make_heap_spec_witness :
  is_heap (heap HuffmanCoding_init)
  ∧ ∃ h,
      make_heap HuffmanCoding_init (Counter (py "abcaba"))
      = Ok (set_heap HuffmanCoding_init h)
      ∧ is_heap h
      ∧ h ≡ₚ heap HuffmanCoding_init ++ (leaf_of <$> Counter (py "abcaba")).
Proof.
  split; [exact is_heap_nil|].
  exact (make_heap_spec HuffmanCoding_init (Counter (py "abcaba")) is_heap_nil).
Defined.

(** The node that [merge_nodes] builds from the two it popped. *)
Definition merged (node1 node2 : HuffmanNode) : HuffmanNode :=
  {| char := None; freq := freq node1 + freq node2;
     left := Some node1; right := Some node2 |}.

(** One iteration of [merge_nodes]: the two nodes it removes have the
    least frequencies in the heap, the first not above the second; it
    puts back their parent and keeps the heap order. *)
Theorem merge_nodes_step (h : list HuffmanNode) :
  is_heap h → 1 < length h →
  ∃ node1 node2 rest h',
    h ≡ₚ node1 :: node2 :: rest
    ∧ freq node1 ≤ freq node2
    ∧ (∀ y, y ∈ rest → freq node2 ≤ freq y)
    ∧ h' ≡ₚ merged node1 node2 :: rest
    ∧ is_heap h'
    ∧ ∀ fuel, merge_nodes_loop (S fuel) h = merge_nodes_loop fuel h'.
Proof.
  intros Hheap Hlen.
  destruct (heapq_order.heappop_heap h Hheap)
    as (node1 & h1 & Hpop1 & Hheap1 & Hperm1 & Hmin1).
  { intros ->. simpl in Hlen. lia. }
  destruct (heapq_order.heappop_heap h1 Hheap1)
    as (node2 & h2 & Hpop2 & Hheap2 & Hperm2 & Hmin2).
  { intros ->. rewrite Hperm1 in Hlen. simpl in Hlen. lia. }
  destruct (heapq_order.heappush_heap h2 (merged node1 node2) Hheap2)
    as (h3 & Hpush & Hheap3 & Hperm3).
  exists node1, node2, h2, h3. split_and!; [|..|done|done|].
  - by rewrite Hperm1, Hperm2.
  - apply Hmin1. rewrite Hperm2. by left.
  - done.
  - intros fuel. cbn [merge_nodes_loop]. rewrite decide_True by done.
    rewrite Hpop1. cbn [mbind result_bind]. rewrite Hpop2.
    cbn [mbind result_bind]. fold (merged node1 node2). rewrite Hpush. done.
Qed.

(** A heap of three leaves, for [a], [b] and [c]. *)
Definition sample_heap : list HuffmanNode :=
  [HuffmanNode_init (Some "a"%char) 1; HuffmanNode_init (Some "b"%char) 3;
   HuffmanNode_init (Some "c"%char) 2].

Lemma merge_nodes_step_witness :
  is_heap sample_heap ∧ 1 < length sample_heap
  ∧ ∃ node1 node2 rest h',
      sample_heap ≡ₚ node1 :: node2 :: rest
      ∧ freq node1 ≤ freq node2
      ∧ (∀ y, y ∈ rest → freq node2 ≤ freq y)
      ∧ h' ≡ₚ merged node1 node2 :: rest
      ∧ is_heap h'
      ∧ ∀ fuel, merge_nodes_loop (S fuel) sample_heap = merge_nodes_loop fuel h'.
Proof.
  assert (is_heap sample_heap) as Hheap.
  { intros i Hi x y Hx Hy. destruct i as [|[|[|i]]]; simpl in *; [lia|..];
      simplify_eq; simpl; lia. }
  assert (1 < length sample_heap) as Hlen by (simpl; lia).
  split; [exact Hheap|]. split; [exact Hlen|].
  exact (merge_nodes_step sample_heap Hheap Hlen).
Defined.

Lemma merge_nodes_loop_total (fuel : nat) (h : list HuffmanNode) :
  h ≠ [] → length h ≤ S fuel →
  ∃ root,
    merge_nodes_loop fuel h = Ok [root]
    ∧ freq root = sum_list_with freq h
    ∧ symbols root ≡ₚ h ≫= symbols.
Proof.
  revert h. induction fuel as [|fuel IH]; intros h Hne Hlen.
  - destruct h as [|root [|??]]; simpl in *; try done; try lia.
    exists root. split_and!; [done|lia|by rewrite app_nil_r].
  - cbn [merge_nodes_loop]. case_decide as Hmany.
    + destruct (heapq_facts.heappop_Permutation h Hne) as (node1 & h1 & -> & Hp1).
      cbn [mbind result_bind].
      assert (length h = S (length h1)) as Hl1 by by rewrite Hp1.
      destruct (heapq_facts.heappop_Permutation h1) as (node2 & h2 & -> & Hp2).
      { intros ->. simpl in *. lia. }
      cbn [mbind result_bind].
      assert (length h1 = S (length h2)) as Hl2 by by rewrite Hp2.
      fold (merged node1 node2).
      destruct (heapq_facts.heappush_Permutation h2 (merged node1 node2))
        as (h3 & -> & Hp3).
      cbn [mbind result_bind].
      destruct (IH h3) as (root & -> & Hfreq & Hsym).
      { intros ->. by apply Permutation_nil_cons in Hp3. }
      { rewrite Hp3. simpl. lia. }
      exists root. split_and!; [done| |].
      * rewrite Hfreq, Hp3, Hp1, Hp2. simpl. lia.
      * rewrite Hsym, Hp3, Hp1, Hp2. simpl. by rewrite <- app_assoc.
    + destruct h as [|root [|??]]; simpl in *; try done; try lia.
      exists root. split_and!; [done|lia|by rewrite app_nil_r].
Qed.

(** [merge_nodes] leaves an empty heap empty; any other heap it reduces
    to a single node, whose frequency is the sum of the frequencies in
    the heap and whose leaves carry the symbols the heap held. *)
Theorem merge_nodes_spec (self : HuffmanCoding) :
  (heap self = [] → merge_nodes self = Ok self)
  ∧ (heap self ≠ [] →
     ∃ root,
       merge_nodes self = Ok (set_heap self [root])
       ∧ freq root = sum_list_with freq (heap self)
       ∧ symbols root ≡ₚ heap self ≫= symbols).
Proof.
  split.
  - intros Hheap. unfold merge_nodes. rewrite Hheap. by destruct self; simplify_eq/=.
  - intros Hne. unfold merge_nodes.
    destruct (merge_nodes_loop_total (length (heap self)) (heap self))
      as (root & -> & Hfreq & Hsym); [done|lia|].
    by exists root.
Qed.

Lemma merge_nodes_spec_witness :
  heap HuffmanCoding_init = []
  ∧ heap (set_heap HuffmanCoding_init sample_heap) ≠ []
  ∧ merge_nodes HuffmanCoding_init = Ok HuffmanCoding_init
  ∧ ∃ root,
      merge_nodes (set_heap HuffmanCoding_init sample_heap)
      = Ok (set_heap (set_heap HuffmanCoding_init sample_heap) [root])
      ∧ freq root = sum_list_with freq (heap (set_heap HuffmanCoding_init sample_heap))
      ∧ symbols root ≡ₚ heap (set_heap HuffmanCoding_init sample_heap) ≫= symbols.
Proof.
  assert (heap HuffmanCoding_init = []) as H0 by reflexivity.
  assert (heap (set_heap HuffmanCoding_init sample_heap) ≠ []) as H1 by discriminate.
  split; [exact H0|]. split; [exact H1|].
  split; [exact (proj1 (merge_nodes_spec HuffmanCoding_init) H0)|].
  exact (proj2 (merge_nodes_spec (set_heap HuffmanCoding_init sample_heap)) H1).
Defined.

Lemma leaf_of_frequencies (frequency : list (ascii * nat)) :
  sum_list_with freq (leaf_of <$> frequency) = sum_list frequency.*2.
Proof.
  induction frequency as [|[c f] frequency IH]; [done|].
  rewrite !fmap_cons. cbn [sum_list_with]. by rewrite IH.
Qed.

Lemma leaf_of_symbols (frequency : list (ascii * nat)) :
  (leaf_of <$> frequency) ≫= symbols = frequency.*1.
Proof.
  induction frequency as [|[c f] frequency IH]; [done|].
  rewrite !fmap_cons. cbn [mbind list_bind]. by rewrite IH.
Qed.

(** From a non-empty text, [make_heap] and [merge_nodes] build one tree:
    leaves and merged nodes only, one leaf per distinct symbol of the
    text, and the length of the text as the frequency of the root. *)
Theorem tree_of_text (text : str) :
  text ≠ [] →
  ∃ root,
    (self ← make_heap HuffmanCoding_init (make_frequency_dict text);
     merge_nodes self) = Ok (set_heap HuffmanCoding_init [root])
    ∧ proper root
    ∧ freq root = length text
    ∧ symbols root ≡ₚ (make_frequency_dict text).*1.
Proof.
  intros Hne. unfold make_frequency_dict, make_heap, merge_nodes.
  change (heap HuffmanCoding_init) with (@nil HuffmanNode).
  destruct (make_heap_loop_heap (Counter text) [] is_heap_nil)
    as (h & Hfor & _ & Hperm).
  rewrite app_nil_l in Hperm. rewrite Hfor. cbn [mbind result_bind heap set_heap].
  destruct (merge_nodes_loop_total (length h) h) as (root & Hmerge & Hfreq & Hsym);
    [|lia|].
  { intros ->. apply Permutation_nil_l in Hperm. symmetry in Hperm.
    apply fmap_nil_inv in Hperm. by apply Counter_nonempty in Hperm. }
  destruct (huffman_forest_spec (Counter text)) as (root' & Hforest & Hproper & _);
    [by apply Counter_nonempty|].
  unfold huffman_forest, make_heap, merge_nodes in Hforest.
  change (heap HuffmanCoding_init) with (@nil HuffmanNode) in Hforest.
  rewrite Hfor in Hforest. cbn [mbind result_bind heap set_heap] in Hforest.
  rewrite Hmerge in Hforest. cbn [mbind result_bind heap set_heap] in Hforest.
  injection Hforest as <-.
  exists root. rewrite Hmerge. cbn [mbind result_bind set_heap codes reverse_mapping].
  split_and!; [done..| |].
  - rewrite Hfreq, Hperm, leaf_of_frequencies.
    unfold Counter. by rewrite Counter_loop_sum.
  - by rewrite Hsym, Hperm, leaf_of_symbols.
Qed.

Lemma tree_of_text_witness :
  py "hello world" ≠ []
  ∧ ∃ root,
      (self ← make_heap HuffmanCoding_init (make_frequency_dict (py "hello world"));
       merge_nodes self) = Ok (set_heap HuffmanCoding_init [root])
      ∧ proper root
      ∧ freq root = length (py "hello world")
      ∧ symbols root ≡ₚ (make_frequency_dict (py "hello world")).*1.
Proof.
  assert (py "hello world" ≠ []) as Hne by discriminate.
  split; [exact Hne|]. exact (tree_of_text (py "hello world") Hne).
Defined.

(** ** The code table of a compressed text *)

Lemma symbols_nonempty (node : HuffmanNode) : proper node → 0 < length (symbols node).
Proof.
  induction 1 as [c f l r|f l r _ IHl _ IHr]; simpl; [lia|].
  rewrite length_app. lia.
Qed.

(** Below a non-empty path, a code is shorter than the path plus the number
    of leaves of the subtree. *)
Lemma assignments_depth (node : HuffmanNode) :
  proper node →
  ∀ current_code p, current_code ≠ [] → p ∈ (assignments node current_code).*2 →
    length p + 1 ≤ length current_code + length (symbols node).
Proof.
  induction 1 as [c f l r|f l r Hl IHl Hr IHr]; intros current_code p Hne Hp;
    simpl in Hp.
  - apply list_elem_of_singleton in Hp as ->.
    destruct current_code; [done|]. simpl. lia.
  - pose proof (symbols_nonempty l Hl). pose proof (symbols_nonempty r Hr).
    rewrite fmap_app, elem_of_app in Hp. cbn [symbols]. rewrite length_app.
    destruct Hp as [Hp|Hp]; [apply IHl in Hp|apply IHr in Hp];
      try (by destruct current_code);
      rewrite length_app in Hp; simpl in Hp; lia.
Qed.

Lemma code_table_length (root : HuffmanNode) (c : ascii) (p : str) :
  proper root → NoDup (symbols root) → code_table root !! c = Some p →
  length p ≤ max 1 (length (symbols root) - 1).
Proof.
  intros Hproper Hnodup Hp%code_table_lookup; [|done].
  assert (p ∈ (assignments root []).*2) as Hin
    by (apply list_elem_of_fmap; by exists (c, p)).
  destruct Hproper as [c' f l r|f l r Hl Hr]; simpl in Hin.
  - apply list_elem_of_singleton in Hin as ->. simpl. lia.
  - pose proof (symbols_nonempty l Hl). pose proof (symbols_nonempty r Hr).
    rewrite fmap_app, elem_of_app in Hin. cbn [symbols]. rewrite length_app.
    destruct Hin as [Hin|Hin]; apply assignments_depth in Hin; try done;
      simpl in Hin; lia.
Qed.

(** After compressing a non-empty text on a fresh instance the heap is
    empty again, the returned table is the instance's [codes], and the
    reverse mapping is exactly the inverse of the table. *)
Theorem compress_tables_inverse (text : str) :
  text ≠ [] →
  ∃ byte_array table self,
    compress HuffmanCoding_init text = Ok (byte_array, table, self)
    ∧ heap self = [] ∧ codes self = table
    ∧ ∀ c p, table !! c = Some p ↔ reverse_mapping self !! p = Some c.
Proof.
  intros Hne.
  destruct (compress_spec HuffmanCoding_init text)
    as (root & byte_array & _ & Hproper & Hnodup & _ & Hcompress & _); [done..|].
  exists byte_array, (codes (coded HuffmanCoding_init root)),
    (coded HuffmanCoding_init root).
  split_and!; [done..|]. intros c p.
  cbn [codes reverse_mapping coded HuffmanCoding_init].
  rewrite !(right_id_L ∅ (∪)). by apply code_table_inverse.
Qed.

Lemma compress_tables_inverse_witness :
  py "hello world" ≠ []
  ∧ ∃ byte_array table self,
      compress HuffmanCoding_init (py "hello world") = Ok (byte_array, table, self)
      ∧ heap self = [] ∧ codes self = table
      ∧ ∀ c p, table !! c = Some p ↔ reverse_mapping self !! p = Some c.
Proof.
  assert (py "hello world" ≠ []) as Hne by discriminate.
  split; [exact Hne|]. exact (compress_tables_inverse (py "hello world") Hne).
Defined.

(** Every code that compressing a non-empty text assigns is a non-empty
    string of binary digits, at most one digit long when the text has a
    single distinct symbol and otherwise shorter than the number of
    distinct symbols. *)
Theorem code_lengths (text : str) :
  text ≠ [] →
  ∃ byte_array table self,
    compress HuffmanCoding_init text = Ok (byte_array, table, self)
    ∧ ∀ c p, table !! c = Some p →
        Forall is_bit p
        ∧ 1 ≤ length p ≤ max 1 (length (make_frequency_dict text) - 1).
Proof.
  intros Hne.
  destruct (compress_spec HuffmanCoding_init text)
    as (root & byte_array & Hforest & Hproper & Hnodup & _ & Hcompress & _);
    [done..|].
  destruct (huffman_forest_spec (Counter text)) as (root' & Hforest' & _ & Hsym);
    [by apply Counter_nonempty|].
  rewrite Hforest in Hforest'. injection Hforest' as <-.
  exists byte_array, (codes (coded HuffmanCoding_init root)),
    (coded HuffmanCoding_init root).
  split; [done|]. intros c p.
  cbn [codes coded HuffmanCoding_init]. rewrite (right_id_L ∅ (∪)). intros Hp.
  destruct (code_table_codes root Hproper Hnodup c p Hp) as [Hpne Hbits].
  pose proof (code_table_length root c p Hproper Hnodup Hp) as Hlen.
  unfold make_frequency_dict.
  rewrite <- (length_fmap fst (Counter text)), <- Hsym.
  split_and!; [done| |done]. destruct p; [done|simpl; lia].
Qed.

Lemma code_lengths_witness :
  py "hello world" ≠ []
  ∧ ∃ byte_array table self,
      compress HuffmanCoding_init (py "hello world") = Ok (byte_array, table, self)
      ∧ ∀ c p, table !! c = Some p →
          Forall is_bit p
          ∧ 1 ≤ length p
            ≤ max 1 (length (make_frequency_dict (py "hello world")) - 1).
Proof.
  assert (py "hello world" ≠ []) as Hne by discriminate.
  split; [exact Hne|]. exact (code_lengths (py "hello world") Hne).
Defined.

(** ** [get_encoded_text] *)

Lemma encode_loop_missing (self : HuffmanCoding) (before after acc : str) (c : ascii) :
  (∀ c', c' ∈ before → is_Some (codes self !! c')) → codes self !! c = None →
  for_ (before ++ c :: after) (encode_step self) acc
  = Raise (KeyError ("Character '" +:+ String c "' not found in Huffman codes")).
Proof.
  revert acc. induction before as [|c' before IH]; intros acc Hin Hc.
  - simpl. unfold encode_step. by rewrite Hc.
  - rewrite <- app_comm_cons, for_cons.
    destruct (Hin c') as [p Hp]; [by left|].
    rewrite (encode_step_Some self acc c' p Hp). cbn [mbind result_bind].
    apply IH; [|done]. intros c'' Hc''. apply Hin. by right.
Qed.

(** [get_encoded_text] raises [KeyError] when the instance has no codes at
    all, even for the empty text, and otherwise when a symbol of the text
    has no code, naming the first such symbol; when every symbol has a
    code it returns the codes of the symbols of the text, one after the
    other (the empty string for the empty text). *)
Theorem get_encoded_text_cases (self : HuffmanCoding) (text : str) :
  (codes self = ∅ →
   get_encoded_text self text = Raise (KeyError "No Huffman codes available"))
  ∧ (codes self ≠ ∅ → (∀ c, c ∈ text → is_Some (codes self !! c)) →
     get_encoded_text self text = Ok (encode (codes self) text))
  ∧ (codes self ≠ ∅ → ∀ before c after,
       text = before ++ c :: after →
       (∀ c', c' ∈ before → is_Some (codes self !! c')) →
       codes self !! c = None →
       get_encoded_text self text
       = Raise (KeyError
                  ("Character '" +:+ String c "' not found in Huffman codes"))).
Proof.
  unfold get_encoded_text. split_and!.
  - intros ->. by rewrite decide_True.
  - intros Hne Hin. rewrite decide_False by done. by rewrite encode_loop.
  - intros Hne before c after -> Hin Hc. rewrite decide_False by done.
    by apply encode_loop_missing.
Qed.

Lemma get_encoded_text_cases_witness :
  codes HuffmanCoding_init = ∅
  ∧ codes sample_coding ≠ ∅
  ∧ (∀ c, c ∈ py "aa" → is_Some (codes sample_coding !! c))
  ∧ get_encoded_text HuffmanCoding_init (py "") = Raise (KeyError "No Huffman codes available")
  ∧ get_encoded_text sample_coding (py "aa") = Ok (encode (codes sample_coding) (py "aa"))
  ∧ get_encoded_text sample_coding (py "aba")
    = Raise (KeyError "Character 'b' not found in Huffman codes").
Proof.
  assert (codes HuffmanCoding_init = ∅) as H0 by reflexivity.
  assert (codes sample_coding ≠ ∅) as H1.
  { intros H. apply (f_equal (λ m, m !! "a"%char)) in H. by vm_compute in H. }
  assert (∀ c, c ∈ py "aa" → is_Some (codes sample_coding !! c)) as H2.
  { intros c Hc. assert (c = "a"%char) as ->.
    { by repeat (apply elem_of_cons in Hc as [?|Hc]; [done|]);
        apply elem_of_nil in Hc. }
    vm_compute. eauto. }
  assert (∀ c', c' ∈ py "a" → is_Some (codes sample_coding !! c')) as H3.
  { intros c Hc. apply list_elem_of_singleton in Hc as ->. vm_compute. eauto. }
  assert (codes sample_coding !! "b"%char = None) as H4 by by vm_compute.
  split_and!; [exact H0|exact H1|exact H2|..].
  - exact (proj1 (get_encoded_text_cases HuffmanCoding_init (py "")) H0).
  - exact (proj1 (proj2 (get_encoded_text_cases sample_coding (py "aa"))) H1 H2).
  - exact (proj2 (proj2 (get_encoded_text_cases sample_coding (py "aba")))
             H1 (py "a") "b"%char (py "a") eq_refl H3 H4).
Defined.

(** ** The size of the compressed text *)

Lemma length_encode (T : gmap ascii str) (text : str) :
  length (encode T text)
  = sum_list_with (λ c, length (default [] (T !! c))) text.
Proof.
  induction text as [|c text IH]; [done|].
  rewrite encode_cons, length_app, IH. done.
Qed.

Lemma counter_incr_weighted (g : ascii → nat) (c : ascii) (d : list (ascii * nat)) :
  sum_list_with (λ e, e.2 * g e.1) (counter_incr c d)
  = sum_list_with (λ e, e.2 * g e.1) d + g c.
Proof.
  induction d as [|[k n] d IH]; [simpl; lia|].
  cbn [counter_incr]. case_decide as Hk; cbn [sum_list_with fst snd].
  - subst k. lia.
  - rewrite IH. lia.
Qed.

(** Summing over the text is summing over the frequency table, each
    symbol weighted by its count. *)
Lemma Counter_weighted (g : ascii → nat) (text : str) :
  sum_list_with g text = sum_list_with (λ e, e.2 * g e.1) (Counter text).
Proof.
  unfold Counter.
  enough (∀ d, sum_list_with (λ e, e.2 * g e.1)
                 (fold_left (λ d c, counter_incr c d) text d)
               = sum_list_with (λ e, e.2 * g e.1) d + sum_list_with g text) as ->
    by done.
  induction text as [|c text IH]; intros d; simpl; [lia|].
  rewrite IH, counter_incr_weighted. lia.
Qed.

(** The bits that compressing a non-empty text produces: the codes of its
    symbols in order, binary digits whose number is the sum over the
    distinct symbols of count times code length; the bytes returned are
    these bits behind the header, padded with zeros to whole bytes. *)
Theorem compressed_size (text : str) :
  text ≠ [] →
  ∃ byte_array table self encoded_text,
    compress HuffmanCoding_init text = Ok (byte_array, table, self)
    ∧ get_encoded_text self text = Ok encoded_text
    ∧ Forall is_bit encoded_text
    ∧ length encoded_text
      = sum_list_with (λ e, e.2 * length (default [] (table !! e.1)))
          (make_frequency_dict text)
    ∧ bits_of_bytes byte_array = pad_encoded_text encoded_text
    ∧ length byte_array * 8
      = 8 + length encoded_text + (8 - length encoded_text mod 8) mod 8.
Proof.
  intros Hne.
  destruct (compress_spec HuffmanCoding_init text)
    as (root & byte_array & _ & Hproper & Hnodup & Hin & Hcompress & _ & Hbits & Hlen);
    [done..|].
  exists byte_array, (codes (coded HuffmanCoding_init root)),
    (coded HuffmanCoding_init root), (encode (code_table root) text).
  assert (codes (coded HuffmanCoding_init root) = code_table root) as Hcodes.
  { cbn [codes coded HuffmanCoding_init]. apply (right_id_L ∅ (∪)). }
  rewrite Hcodes. split_and!; [by rewrite <- Hcodes| | | |done|].
  - rewrite get_encoded_text_spec, Hcodes; [done..|].
    intros c Hc. rewrite Hcodes. by apply code_table_dom, Hin.
  - apply encode_bits. intros c p Hp.
    by apply (code_table_codes root Hproper Hnodup c p).
  - rewrite length_encode. unfold make_frequency_dict.
    apply (Counter_weighted (λ c, length (default [] (code_table root !! c)))).
  - by rewrite Hlen, padding_of_formula.
Qed.

Lemma compressed_size_witness :
  py "hello world" ≠ []
  ∧ ∃ byte_array table self encoded_text,
      compress HuffmanCoding_init (py "hello world") = Ok (byte_array, table, self)
      ∧ get_encoded_text self (py "hello world") = Ok encoded_text
      ∧ Forall is_bit encoded_text
      ∧ length encoded_text
        = sum_list_with (λ e, e.2 * length (default [] (table !! e.1)))
            (make_frequency_dict (py "hello world"))
      ∧ bits_of_bytes byte_array = pad_encoded_text encoded_text
      ∧ length byte_array * 8
        = 8 + length encoded_text + (8 - length encoded_text mod 8) mod 8.
Proof.
  assert (py "hello world" ≠ []) as Hne by discriminate.
  split; [exact Hne|]. exact (compressed_size (py "hello world") Hne).
Defined.

(** ** [decode_text] *)

Lemma decode_step_inv (self : HuffmanCoding) (cur out cur' out' : str) (b : ascii) :
  decode_step self (cur, out) b = Ok (cur', out') →
  is_bit b
  ∧ ((∃ c, reverse_mapping self !! (cur ++ [b]) = Some c
           ∧ cur' = [] ∧ out' = out ++ [c])
     ∨ (reverse_mapping self !! (cur ++ [b]) = None
        ∧ cur' = cur ++ [b] ∧ out' = out)).
Proof.
  unfold decode_step. case_decide as Hb; [done|].
  assert (is_bit b) as Hbit.
  { unfold is_bit. destruct (decide (b = "0"%char)); [by left|].
    destruct (decide (b = "1"%char)); [by right|]. by destruct Hb. }
  destruct (reverse_mapping self !! (cur ++ [b])) as [c|] eqn:Hc;
    intros [= <- <-]; (split; [done|]); [left|right]; eauto.
Qed.

Lemma decode_loop_sound (self : HuffmanCoding) (bits cur out cur' out' : str) :
  for_ bits (decode_step self) (cur, out) = Ok (cur', out') →
  Forall is_bit bits
  ∧ ∃ ks cs,
      cur ++ bits = concat ks ++ cur' ∧ out' = out ++ cs
      ∧ Forall2 (λ k c, k ≠ [] ∧ reverse_mapping self !! k = Some c) ks cs.
Proof.
  revert cur out. induction bits as [|b bits IH]; intros cur out Hrun.
  - injection Hrun as <- <-. split; [constructor|].
    exists [], []. by rewrite !app_nil_r.
  - rewrite for_cons in Hrun.
    destruct (decode_step self (cur, out) b) as [[cur1 out1]| |] eqn:Hstep;
      try done.
    cbn [mbind result_bind] in Hrun.
    apply decode_step_inv in Hstep as [Hb Hstep].
    apply IH in Hrun as (Hbits & ks & cs & Hsplit & Hout & Hall).
    split; [by constructor|].
    destruct Hstep as [(c & Hc & -> & ->)|(Hc & -> & ->)].
    + exists ((cur ++ [b]) :: ks), (c :: cs). split_and!.
      * simpl in *. rewrite Hsplit. by rewrite <- !app_assoc.
      * by rewrite Hout, <- app_assoc.
      * constructor; [|done]. split; [by destruct cur|done].
    + exists ks, cs. split_and!; [|done..].
      by rewrite <- Hsplit, <- app_assoc.
Qed.

(** A text that [decode_text] returns accounts for the whole input: the
    input consists of binary digits and splits into codes of the reverse
    mapping, one for each symbol of the text, which is never empty. *)
Theorem decode_text_sound (self : HuffmanCoding) (encoded_text text : str) :
  decode_text self encoded_text = Ok text →
  Forall is_bit encoded_text ∧ text ≠ []
  ∧ ∃ ks,
      encoded_text = concat ks
      ∧ Forall2 (λ k c, k ≠ [] ∧ reverse_mapping self !! k = Some c) ks text.
Proof.
  unfold decode_text. destruct encoded_text as [|b bits]; [done|].
  destruct (for_ (b :: bits) (decode_step self) ([], []))
    as [[cur out]| |] eqn:Hrun; try done.
  cbn [mbind result_bind]. destruct cur; [|done]. intros [= ->].
  apply decode_loop_sound in Hrun as (Hbits & ks & cs & Hsplit & -> & Hall).
  rewrite app_nil_r in Hsplit. simpl in Hsplit, Hall.
  split_and!; [done| |by exists ks].
  simpl. intros ->. apply Forall2_nil_inv_r in Hall as ->. done.
Qed.

Lemma decode_text_sound_witness :
  decode_text sample_coding (py "0000") = Ok (py "aa")
  ∧ Forall is_bit (py "0000") ∧ py "aa" ≠ []
  ∧ ∃ ks,
      py "0000" = concat ks
      ∧ Forall2 (λ k c, k ≠ [] ∧ reverse_mapping sample_coding !! k = Some c)
          ks (py "aa").
Proof.
  assert (decode_text sample_coding (py "0000") = Ok (py "aa")) as H
    by (vm_compute; reflexivity).
  split; [exact H|].
  exact (decode_text_sound sample_coding (py "0000") (py "aa") H).
Defined.

Lemma decode_step_non_bit (self : HuffmanCoding) (cur out : str) (b : ascii) :
  ¬ is_bit b →
  decode_step self (cur, out) b
  = Raise (ValueError "Invalid encoded text: contains non-binary characters").
Proof.
  intros Hb. unfold decode_step. rewrite decide_True; [done|].
  split; intros ->; apply Hb; [by left|by right].
Qed.

Lemma decode_loop_non_binary (self : HuffmanCoding) (bits : str) (st : str * str) :
  ¬ Forall is_bit bits →
  for_ bits (decode_step self) st
  = Raise (ValueError "Invalid encoded text: contains non-binary characters").
Proof.
  revert st. induction bits as [|b bits IH]; intros [cur out] Hbad.
  - destruct Hbad. constructor.
  - rewrite for_cons. destruct (decide (is_bit b)) as [Hbit|Hbit].
    + assert (¬ Forall is_bit bits) as Hrest
        by (intros Hrest; apply Hbad; by constructor).
      destruct (reverse_mapping self !! (cur ++ [b])) as [c|] eqn:Hc.
      * rewrite (decode_step_hit self cur out b c Hbit Hc).
        cbn [mbind result_bind]. by apply IH.
      * rewrite (decode_step_miss self cur out b Hbit Hc).
        cbn [mbind result_bind]. by apply IH.
    + rewrite (decode_step_non_bit self cur out b Hbit). done.
Qed.

(** [decode_text] raises [ValueError] on any input that holds a character
    other than [0] and [1], whatever the reverse mapping. *)
Theorem decode_text_non_binary (self : HuffmanCoding) (encoded_text : str) :
  ¬ Forall is_bit encoded_text →
  decode_text self encoded_text
  = Raise (ValueError "Invalid encoded text: contains non-binary characters").
Proof.
  intros Hbad. unfold decode_text.
  destruct encoded_text as [|b bits]; [destruct Hbad; constructor|].
  by rewrite decode_loop_non_binary.
Qed.

Lemma decode_text_non_binary_witness :
  ¬ Forall is_bit (py "002")
  ∧ decode_text sample_coding (py "002")
    = Raise (ValueError "Invalid encoded text: contains non-binary characters").
Proof.
  assert (¬ Forall is_bit (py "002")) as Hbad.
  { intros H. apply (bool_decide_pack _) in H. by vm_compute in H. }
  split; [exact Hbad|]. exact (decode_text_non_binary sample_coding (py "002") Hbad).
Defined.

(** ** [remove_padding] *)

(** [remove_padding] reads the count in the header and cuts that many
    characters off the end without looking at them: behind a header that
    declares [p ≤ 7], any non-empty payload followed by any [p]
    characters is returned as it is. *)
Theorem remove_padding_frame (p : nat) (payload junk : str) :
  p ≤ 7 → payload ≠ [] → length junk = p →
  remove_padding (format_08b p ++ payload ++ junk) = Ok payload.
Proof.
  intros Hp Hne Hjunk. unfold remove_padding.
  destruct (format_08b_small p) as (Hfl & _ & Hint); [lia|].
  rewrite !length_app, Hfl, Hjunk.
  rewrite decide_False by lia.
  assert (slice (format_08b p ++ payload ++ junk) 0 8 = format_08b p) as ->.
  { unfold slice. rewrite drop_0. by apply take_app_length'. }
  rewrite Hint. cbn [mbind result_bind].
  rewrite decide_False by lia.
  assert (drop 8 (format_08b p ++ payload ++ junk) = payload ++ junk) as Hdrop
    by by rewrite drop_app_length'.
  case_decide as Hpos.
  - unfold slice, from_end. rewrite Hdrop, !length_app, Hfl, Hjunk.
    replace (8 + (length payload + p) - p - 8) with (length payload) by lia.
    rewrite take_app_length. by destruct payload.
  - rewrite Hdrop. assert (p = 0) as -> by lia.
    apply nil_length_inv in Hjunk as ->. rewrite app_nil_r. by destruct payload.
Qed.

Lemma remove_padding_frame_witness :
  3 ≤ 7 ∧ py "10110" ≠ [] ∧ length (py "111") = 3
  ∧ remove_padding (format_08b 3 ++ py "10110" ++ py "111") = Ok (py "10110").
Proof.
  assert (3 ≤ 7) as H1 by lia.
  assert (py "10110" ≠ []) as H2 by discriminate.
  assert (length (py "111") = 3) as H3 by reflexivity.
  split_and!; [exact H1|exact H2|exact H3|].
  exact (remove_padding_frame 3 (py "10110") (py "111") H1 H2 H3).
Defined.

(** What [remove_padding] returns is what lies between the 8-character
    header and the declared number, at most 7, of trailing characters;
    it is never empty. *)
Lemma remove_padding_inv (bit_string payload : str) :
  remove_padding bit_string = Ok payload →
  ∃ p junk,
    declared_padding bit_string = Ok p ∧ p ≤ 7 ∧ length junk = p
    ∧ payload ≠ []
    ∧ bit_string = take 8 bit_string ++ payload ++ junk.
Proof.
  unfold remove_padding, declared_padding.
  case_decide as Hlen; [done|].
  destruct (int2 (slice bit_string 0 8)) as [p|[]|]; try done.
  cbn [mbind result_bind]. case_decide as Hcheck; [done|].
  assert (p ≤ 7 ∧ (p = 0 ∨ 8 + p ≤ length bit_string)) as [Hp Hfit] by lia.
  case_decide as Hpos.
  - unfold slice, from_end.
    destruct (take _ (drop 8 bit_string)) as [|b bits] eqn:Hpay; [done|].
    intros [= <-]. exists p, (drop (length bit_string - p) bit_string).
    split_and!; [done|done|rewrite length_drop; lia|done|].
    rewrite <- Hpay.
    rewrite <- (take_drop 8 bit_string) at 1. f_equal.
    rewrite <- (take_drop (length bit_string - p - 8) (drop 8 bit_string)) at 1.
    f_equal. rewrite drop_drop. f_equal. lia.
  - destruct (drop 8 bit_string) as [|b bits] eqn:Hpay; [done|].
    intros [= <-]. exists p, []. assert (p = 0) as -> by lia.
    split_and!; [done..|].
    by rewrite app_nil_r, <- Hpay, take_drop.
Qed.

(** ** Bytes and bits *)

Lemma format_08b_byte_inj (x y : byte) :
  format_08b (Byte.to_nat x) = format_08b (Byte.to_nat y) → x = y.
Proof.
  intros Heq.
  destruct (format_08b_byte x) as (_ & _ & Hx).
  destruct (format_08b_byte y) as (_ & _ & Hy).
  rewrite Heq, Hy in Hx. injection Hx as Hxy.
  pose proof (Byte.of_to_nat x) as Hx. rewrite <- Hxy, Byte.of_to_nat in Hx.
  by injection Hx.
Qed.

Lemma bits_of_bytes_inj (bs1 bs2 : list byte) :
  bits_of_bytes bs1 = bits_of_bytes bs2 → bs1 = bs2.
Proof.
  revert bs2. induction bs1 as [|x bs1 IH]; intros [|y bs2] Heq; [done|..].
  - apply (f_equal length) in Heq. rewrite !length_bits_of_bytes in Heq.
    simpl in Heq. lia.
  - apply (f_equal length) in Heq. rewrite !length_bits_of_bytes in Heq.
    simpl in Heq. lia.
  - rewrite !bits_of_bytes_cons in Heq.
    apply app_inj_1 in Heq as [Hxy Hrest].
    + f_equal; [by apply format_08b_byte_inj|by apply IH].
    + destruct (format_08b_byte x) as [-> _].
      by destruct (format_08b_byte y) as [-> _].
Qed.

(** Packing and expanding are inverse to each other: [get_byte_array]
    gives back every non-empty byte sequence from the bit string that
    [decompress] expands it to, and the bytes it makes of a non-empty
    string of whole octets of binary digits expand to that string. *)
Theorem packing_inverse :
  (∀ byte_array, byte_array ≠ [] →
     get_byte_array (bits_of_bytes byte_array) = Ok byte_array)
  ∧ (∀ bit_string,
       bit_string ≠ [] → length bit_string mod 8 = 0 → Forall is_bit bit_string →
       ∃ byte_array,
         get_byte_array bit_string = Ok byte_array
         ∧ bits_of_bytes byte_array = bit_string
         ∧ length byte_array * 8 = length bit_string).
Proof.
  split.
  - intros byte_array Hne.
    destruct (get_byte_array_octets (bits_of_bytes byte_array) (length byte_array))
      as (bs & Hbs & _ & Hbits).
    + apply length_bits_of_bytes.
    + destruct byte_array; [done|simpl; lia].
    + apply bits_of_bytes_bits.
    + by apply bits_of_bytes_inj in Hbits as ->.
  - intros bit_string Hne Hoct Hbits.
    destruct (get_byte_array_octets bit_string (length bit_string / 8))
      as (bs & Hbs & Hlen & Hexp); [lia| |done|].
    + assert (0 < length bit_string) by (destruct bit_string; [done|simpl; lia]).
      lia.
    + exists bs. split_and!; [done..|lia].
Qed.

Lemma packing_inverse_witness :
  [x03; xb0] ≠ [] ∧ py "0000001110110000" ≠ []
  ∧ length (py "0000001110110000") mod 8 = 0
  ∧ Forall is_bit (py "0000001110110000")
  ∧ get_byte_array (bits_of_bytes [x03; xb0]) = Ok [x03; xb0]
  ∧ ∃ byte_array,
      get_byte_array (py "0000001110110000") = Ok byte_array
      ∧ bits_of_bytes byte_array = py "0000001110110000"
      ∧ length byte_array * 8 = length (py "0000001110110000").
Proof.
  assert ([x03; xb0] ≠ []) as H1 by discriminate.
  assert (py "0000001110110000" ≠ []) as H2 by discriminate.
  assert (length (py "0000001110110000") mod 8 = 0) as H3 by reflexivity.
  assert (Forall is_bit (py "0000001110110000")) as H4
    by (apply (bool_decide_unpack _); vm_compute; exact I).
  split_and!; [exact H1|exact H2|exact H3|exact H4|..].
  - exact (proj1 packing_inverse [x03; xb0] H1).
  - exact (proj2 packing_inverse (py "0000001110110000") H2 H3 H4).
Defined.

(** ** [decompress] and [compress] together *)

(** A non-empty text that [decompress] returns accounts for every bit of
    the stream: the bytes expand to the header of a padding count of at
    most 7, then codes of the reverse mapping, one per symbol of the
    text, then as many further bits as the header declares. *)
Theorem decompress_sound (self : HuffmanCoding) (byte_array : list byte) (text : str) :
  decompress self byte_array = Ok text → text ≠ [] →
  ∃ p ks junk,
    p ≤ 7 ∧ length junk = p
    ∧ bits_of_bytes byte_array = format_08b p ++ concat ks ++ junk
    ∧ Forall2 (λ k c, k ≠ [] ∧ reverse_mapping self !! k = Some c) ks text.
Proof.
  rewrite decompress_eq. intros Hrun Hne.
  destruct (remove_padding (bits_of_bytes byte_array)) as [e|[]|] eqn:Hpad;
    cbn [mbind result_bind] in Hrun; try done; [|by simplify_eq].
  destruct (decode_text self e) as [text'|[]|] eqn:Hdec; try done;
    [|by simplify_eq].
  injection Hrun as ->.
  apply remove_padding_inv in Hpad
    as (p & junk & Hdecl & Hp & Hjunk & _ & Hframe).
  unfold decode_text in Hdec. destruct e as [|b bits]; [done|].
  destruct (for_ (b :: bits) (decode_step self) ([], []))
    as [[cur out]| |] eqn:Hloop; try done.
  cbn [mbind result_bind] in Hdec. destruct cur; [|done].
  injection Hdec as ->.
  apply decode_loop_sound in Hloop as (_ & ks & cs & Hsplit & -> & Hall).
  rewrite app_nil_r, app_nil_l in Hsplit. rewrite app_nil_l in Hne |- *.
  rewrite Hsplit in Hframe.
  exists p, ks, junk. split_and!; [done..| |done].
  destruct byte_array as [|b0 rest].
  { apply (f_equal length) in Hframe. rewrite !length_app in Hframe.
    simpl in Hframe. destruct (concat ks); [done|simpl in Hframe; lia]. }
  rewrite Hframe at 1. f_equal.
  unfold declared_padding, slice in Hdecl. rewrite drop_0 in Hdecl.
  destruct (format_08b_byte b0) as (Hlen & _ & Hint).
  rewrite bits_of_bytes_cons in *.
  rewrite take_app_length' in * by done.
  rewrite Hint in Hdecl. by injection Hdecl as <-.
Qed.

Lemma decompress_sound_witness :
  decompress sample_coding [x04; x00] = Ok (py "aa") ∧ py "aa" ≠ []
  ∧ ∃ p ks junk,
      p ≤ 7 ∧ length junk = p
      ∧ bits_of_bytes [x04; x00] = format_08b p ++ concat ks ++ junk
      ∧ Forall2 (λ k c, k ≠ [] ∧ reverse_mapping sample_coding !! k = Some c)
          ks (py "aa").
Proof.
  assert (decompress sample_coding [x04; x00] = Ok (py "aa")) as H1
    by (vm_compute; reflexivity).
  assert (py "aa" ≠ []) as H2 by discriminate.
  split; [exact H1|]. split; [exact H2|].
  exact (decompress_sound sample_coding [x04; x00] (py "aa") H1 H2).
Defined.

Lemma decode_table_of_code_table (root1 root2 : HuffmanNode) :
  proper root1 → NoDup (symbols root1) → proper root2 → NoDup (symbols root2) →
  code_table root1 = code_table root2 → decode_table root1 = decode_table root2.
Proof.
  intros Hp1 Hn1 Hp2 Hn2 Heq. apply map_eq. intros p. apply option_eq. intros c.
  by rewrite <- !code_table_inverse, Heq.
Qed.

(** Compression on fresh instances loses nothing: two texts that give the
    same bytes and the same code table are the same text. *)
Theorem compress_injective (text1 text2 : str) (byte_array : list byte)
    (table : gmap ascii str) (self1 self2 : HuffmanCoding) :
  compress HuffmanCoding_init text1 = Ok (byte_array, table, self1) →
  compress HuffmanCoding_init text2 = Ok (byte_array, table, self2) →
  text1 = text2.
Proof.
  intros H1 H2.
  assert (text1 ≠ []) as Hne1 by (intros ->; done).
  assert (text2 ≠ []) as Hne2 by (intros ->; done).
  destruct (compress_spec HuffmanCoding_init text1)
    as (root1 & b1 & _ & Hp1 & Hn1 & Hin1 & Hc1 & _ & Hbits1 & _); [done..|].
  destruct (compress_spec HuffmanCoding_init text2)
    as (root2 & b2 & _ & Hp2 & Hn2 & Hin2 & Hc2 & _ & Hbits2 & _); [done..|].
  rewrite H1 in Hc1. rewrite H2 in Hc2.
  injection Hc1 as <- Htable1 _. injection Hc2 as <- Htable2 _.
  cbn [codes coded HuffmanCoding_init] in Htable1, Htable2.
  rewrite (right_id_L ∅ (∪)) in Htable1, Htable2.
  assert (code_table root1 = code_table root2) as Heq by congruence.
  set (self := set_heap {| heap := []; codes := ∅;
                           reverse_mapping := decode_table root1 |} []).
  assert (decompress self byte_array = Ok text1) as Hd1.
  { apply (decompress_spec self root1); [done..| |done|done|done].
    intros c. apply Hin1. }
  assert (decompress self byte_array = Ok text2) as Hd2.
  { apply (decompress_spec self root2); [done..| |done| |done].
    - intros c. apply Hin2.
    - by apply decode_table_of_code_table. }
  congruence.
Qed.

Lemma compress_injective_witness :
  ∃ byte_array table self,
    compress HuffmanCoding_init (py "abca") = Ok (byte_array, table, self)
    ∧ py "abca" = py "abca".
Proof.
  destruct (compress HuffmanCoding_init (py "abca")) as [[[b table] self]| |] eqn:H;
    vm_compute in H; try discriminate H.
  exists b, table, self. split; [reflexivity|].
  exact (compress_injective (py "abca") (py "abca") b table self self H H).
Defined.

(** ** The persisted code table: [save_huffman_codes], [load_huffman_codes]

    A text file is its content.  Opening, encoding and the operating
    system are outside the model: [save_huffman_codes] is the text it
    writes, [load_huffman_codes] what it makes of the text it reads. *)

(** [str(n)] for a non-negative [int]. *)
Definition str_of_nat (n : nat) : str :=
  py (NilEmpty.string_of_uint (Nat.to_uint n)).

(** [ord(c)] *)
Definition ord (c : ascii) : nat := nat_of_ascii c.

(** The text that [save_huffman_codes] writes for the dictionary whose
    [items()] are [items]: one line [ordinal,code] per entry. *)
Definition save_huffman_codes (items : list (ascii * str)) : str :=
  fold_left
    (λ file '(char, code),
       let char_code := ord char in
       file ++ str_of_nat char_code ++ py "," ++ code ++ ["010"%char])
    items [].

(** [c.isspace()], for the characters of this model (code points below
    256). *)
Definition isspace (c : ascii) : bool :=
  bool_decide (nat_of_ascii c ∈ [9; 10; 11; 12; 13; 28; 29; 30; 31; 32; 133; 160]).

Fixpoint lstrip (s : str) : str :=
  match s with
  | c :: s' => if isspace c then lstrip s' else s
  | [] => []
  end.

(** [s.strip()] *)
Definition strip (s : str) : str := reverse (lstrip (reverse (lstrip s))).

(** [s.split(sep)] for a separator of one character. *)
Fixpoint split_on (sep : ascii) (s : str) : list str :=
  match s with
  | [] => [[]]
  | c :: s' =>
      if decide (c = sep) then [] :: split_on sep s'
      else match split_on sep s' with
           | w :: ws => (c :: w) :: ws
           | [] => [[c]]
           end
  end.

(** Reading in text mode turns [\r\n] and [\r] into [\n]. *)
Fixpoint universal_newlines (s : str) : str :=
  match s with
  | [] => []
  | c :: s' =>
      if decide (c = "013"%char) then
        match s' with
        | c' :: s'' =>
            if decide (c' = "010"%char) then "010"%char :: universal_newlines s''
            else "010"%char :: universal_newlines s'
        | [] => ["010"%char]
        end
      else c :: universal_newlines s'
  end.

Fixpoint lines_from (s current : str) : list str :=
  match s with
  | [] => match current with [] => [] | _ => [current] end
  | c :: s' =>
      if decide (c = "010"%char) then (current ++ [c]) :: lines_from s' []
      else lines_from s' (current ++ [c])
  end.

(** [for line in file]: the lines of the content, each with its newline. *)
Definition file_lines (content : str) : list str :=
  lines_from (universal_newlines content) [].

Definition decimal_digit (c : ascii) : option Z :=
  let n := nat_of_ascii c in
  if decide (48 ≤ n ≤ 57) then Some (Z.of_nat (n - 48)) else None.

(** The digits of an [int] literal: single underscores may separate
    them. *)
Fixpoint int10_digits (s : str) (acc : Z) (after_digit : bool) : option Z :=
  match s with
  | [] => if after_digit then Some acc else None
  | c :: s' =>
      match decimal_digit c with
      | Some d => int10_digits s' (10 * acc + d) true
      | None =>
          if decide (c = "_"%char) then
            if after_digit then int10_digits s' acc false else None
          else None
      end
  end.

(** [int(s)]: blanks around, an optional sign, decimal digits.  The
    interpreter's limit on the number of digits of a literal is left
    out; the ordinals that [save_huffman_codes] writes have at most
    seven. *)
Definition int10 (s : str) : result Z :=
  let s := strip s in
  let '(negative, digits) :=
    match s with
    | c :: s' =>
        if decide (c = "-"%char) then (true, s')
        else if decide (c = "+"%char) then (false, s')
        else (false, s)
    | [] => (false, s)
    end in
  match int10_digits digits 0 false with
  | Some n => Ok (if negative then (- n)%Z else n)
  | None => Raise (ValueError "invalid literal for int() with base 10")
  end.

(** [chr(n)].  The characters of this model are the code points below
    256; for a larger valid code point the answer is [None]. *)
Definition chr (n : Z) : result (option ascii) :=
  if decide (n < 0 ∨ 1114111 < n)%Z then
    Raise (ValueError "chr() arg not in range(0x110000)")
  else if decide (n < 256)%Z then Ok (Some (ascii_of_nat (Z.to_nat n)))
  else Ok None.

(** The body of the loop of [load_huffman_codes], on the two dictionaries
    and a flag that records a character outside the model. *)
Definition load_step (st : gmap ascii str * gmap str ascii * bool) (line : str)
    : result (gmap ascii str * gmap str ascii * bool) :=
  let '(codes, reverse_mapping, beyond) := st in
  let line := strip line in
  match line with
  | [] => Ok st
  | _ =>
      match split_on ","%char line with
      | [char_code; code] =>
          n ← int10 char_code;
          char ← chr n;
          match char with
          | Some char =>
              Ok (<[char := code]> codes, <[code := char]> reverse_mapping, beyond)
          | None => Ok (codes, reverse_mapping, true)
          end
      | _ => Raise (ValueError "wrong number of values to unpack")
      end
  end.

(** What [load_huffman_codes] returns for a file with the given content:
    the two dictionaries, both empty when a line raises; [None] when the
    file names a character outside the model and no line raises. *)
Definition load_huffman_codes (content : str)
    : option (gmap ascii str * gmap str ascii) :=
  match for_ (file_lines content) load_step (∅, ∅, false) with
  | Ok (codes, reverse_mapping, false) => Some (codes, reverse_mapping)
  | Ok (_, _, true) => None
  | _ => Some (∅, ∅)
  end.

(** What the round trip needs of the ordinal of a character: its decimal
    form is made of digits, reads back as the ordinal, and [chr] gives
    the character back. *)
Definition is_digit (c : ascii) : Prop := 48 ≤ nat_of_ascii c ≤ 57.

#[global] Instance is_digit_dec c : Decision (is_digit c).
Proof. unfold is_digit. apply _. Defined.

Definition ordinal_ok (c : ascii) : bool :=
  let d := str_of_nat (ord c) in
  match int10 d with
  | Ok n =>
      match chr n with
      | Ok (Some c') =>
          bool_decide (c' = c) && bool_decide (Forall is_digit d)
          && negb (bool_decide (d = []))
      | _ => false
      end
  | _ => false
  end.

Lemma ordinal_ok_all (c : ascii) : ordinal_ok c = true.
Proof. destruct c as [[] [] [] [] [] [] [] []]; vm_compute; reflexivity. Qed.

Lemma ordinal_round_trip (c : ascii) :
  ∃ n, int10 (str_of_nat (ord c)) = Ok n ∧ chr n = Ok (Some c)
       ∧ Forall is_digit (str_of_nat (ord c)) ∧ str_of_nat (ord c) ≠ [].
Proof.
  pose proof (ordinal_ok_all c) as Hok. unfold ordinal_ok in Hok.
  destruct (int10 _) as [n| |]; try done. exists n.
  destruct (chr n) as [[c'|]| |]; try done.
  apply andb_true_iff in Hok as [Hok Hne].
  apply andb_true_iff in Hok as [Hc Hd].
  apply bool_decide_eq_true in Hc as ->. apply bool_decide_eq_true in Hd.
  apply negb_true_iff, bool_decide_eq_false in Hne. done.
Qed.

(** A character that is neither blank nor a separator of the format. *)
Definition plain (c : ascii) : Prop :=
  isspace c = false ∧ c ≠ ","%char ∧ c ≠ "010"%char ∧ c ≠ "013"%char.

Lemma is_digit_plain (c : ascii) : is_digit c → plain c.
Proof.
  unfold is_digit, plain, isspace. intros Hc.
  split_and!; [|by intros ->; vm_compute in Hc; lia..].
  apply bool_decide_eq_false. rewrite !elem_of_cons, elem_of_nil. lia.
Qed.

Lemma is_bit_plain (c : ascii) : is_bit c → plain c.
Proof. by intros [-> | ->]. Qed.

Lemma lstrip_head (c : ascii) (s : str) : isspace c = false → lstrip (c :: s) = c :: s.
Proof. simpl. by intros ->. Qed.

Lemma lstrip_space (c : ascii) (s : str) : isspace c = true → lstrip (c :: s) = lstrip s.
Proof. simpl. by intros ->. Qed.

Lemma strip_line (x y : ascii) (mid : str) :
  isspace x = false → isspace y = false →
  strip (x :: mid ++ [y; "010"%char]) = x :: mid ++ [y].
Proof.
  intros Hx Hy. unfold strip. rewrite (lstrip_head x _ Hx).
  replace (x :: mid ++ [y; "010"%char]) with ((x :: mid ++ [y]) ++ ["010"%char])
    by (by rewrite <- app_comm_cons, <- app_assoc).
  rewrite reverse_app, reverse_singleton.
  rewrite <- app_comm_cons, app_nil_l, lstrip_space by done.
  replace (x :: mid ++ [y]) with ((x :: mid) ++ [y]) by done.
  rewrite reverse_app, reverse_singleton, <- app_comm_cons, app_nil_l.
  rewrite (lstrip_head y _ Hy).
  by rewrite reverse_cons, reverse_involutive.
Qed.

Lemma split_on_none (sep : ascii) (s : str) : sep ∉ s → split_on sep s = [s].
Proof.
  induction s as [|c s IH]; intros Hsep; simpl; [done|].
  apply not_elem_of_cons in Hsep as [Hc Hs].
  rewrite decide_False by done. by rewrite IH.
Qed.

Lemma split_on_once (sep : ascii) (d code : str) :
  sep ∉ d → sep ∉ code → split_on sep (d ++ sep :: code) = [d; code].
Proof.
  intros Hd Hcode. induction d as [|c d IH]; simpl.
  - rewrite decide_True by done. by rewrite split_on_none.
  - apply not_elem_of_cons in Hd as [Hc Hd].
    rewrite decide_False by done. by rewrite IH.
Qed.

Lemma universal_newlines_id (s : str) :
  "013"%char ∉ s → universal_newlines s = s.
Proof.
  induction s as [|c s IH]; intros Hs; simpl; [done|].
  apply not_elem_of_cons in Hs as [Hc Hs].
  rewrite decide_False by done. by rewrite IH.
Qed.

Lemma lines_from_line (l rest current : str) :
  "010"%char ∉ l →
  lines_from (l ++ "010"%char :: rest) current
  = (current ++ l ++ ["010"%char]) :: lines_from rest [].
Proof.
  revert current. induction l as [|c l IH]; intros current Hl; simpl.
  - done.
  - apply not_elem_of_cons in Hl as [Hc Hl].
    rewrite decide_False by done. rewrite IH by done.
    by rewrite <- app_assoc.
Qed.

(** The line that [save_huffman_codes] writes for an entry. *)
Definition code_line (entry : ascii * str) : str :=
  str_of_nat (ord entry.1) ++ py "," ++ entry.2 ++ ["010"%char].

Lemma save_huffman_codes_lines (items : list (ascii * str)) :
  save_huffman_codes items = concat (code_line <$> items).
Proof.
  unfold save_huffman_codes.
  enough (∀ file,
            fold_left
              (λ file '(char, code),
                 file ++ str_of_nat (ord char) ++ py "," ++ code ++ ["010"%char])
              items file
            = file ++ concat (code_line <$> items)) as Hgen by apply (Hgen []).
  induction items as [|[c code] items IH]; intros file; simpl.
  - by rewrite app_nil_r.
  - rewrite IH. unfold code_line. simpl. by rewrite <- !app_assoc.
Qed.

(** The part of a line before its newline holds no newline, no carriage
    return and only one comma. *)
Lemma code_line_plain (c : ascii) (code : str) :
  Forall is_bit code →
  Forall plain (str_of_nat (ord c)) ∧ Forall plain code.
Proof.
  intros Hcode. destruct (ordinal_round_trip c) as (_ & _ & _ & Hd & _). split.
  - eapply Forall_impl; [exact Hd|]. apply is_digit_plain.
  - eapply Forall_impl; [exact Hcode|]. apply is_bit_plain.
Qed.

Lemma plain_not_elem (x : ascii) (s : str) :
  Forall plain s → ¬ plain x → x ∉ s.
Proof. intros Hs Hx Hin. apply Hx. by eapply Forall_forall in Hs. Qed.

Lemma file_lines_save (items : list (ascii * str)) :
  Forall (λ e, Forall is_bit e.2) items →
  file_lines (concat (code_line <$> items)) = code_line <$> items.
Proof.
  intros Hitems. unfold file_lines.
  rewrite universal_newlines_id.
  - induction Hitems as [|[c code] items Hcode _ IH]; [done|].
    rewrite fmap_cons. cbn [concat]. unfold code_line at 1. cbn [fst snd].
    destruct (code_line_plain c code Hcode) as [Hd Hc].
    replace ((str_of_nat (ord c) ++ py "," ++ code ++ ["010"%char])
             ++ concat (code_line <$> items))
      with ((str_of_nat (ord c) ++ py "," ++ code)
            ++ "010"%char :: concat (code_line <$> items))
      by (by rewrite <- !app_assoc).
    rewrite lines_from_line, IH.
    + unfold code_line. cbn [fst snd app]. by rewrite <- !app_assoc.
    + change (py ",") with [","%char].
      rewrite !elem_of_app, list_elem_of_singleton.
      intros [Hin|[Hin|Hin]]; [|done|].
      * revert Hin. apply plain_not_elem; [done|]. by intros (_ & _ & ? & _).
      * revert Hin. apply plain_not_elem; [done|]. by intros (_ & _ & ? & _).
  - induction Hitems as [|[c code] items Hcode _ IH]; [by intros ?%elem_of_nil|].
    rewrite fmap_cons. cbn [concat]. unfold code_line at 1. cbn [fst snd].
    destruct (code_line_plain c code Hcode) as [Hd Hc].
    change (py ",") with [","%char].
    rewrite !elem_of_app, !list_elem_of_singleton.
    intros [[Hin|[Hin|[Hin|Hin]]]|Hin]; try done.
    + revert Hin. apply plain_not_elem; [done|]. by intros (_ & _ & _ & ?).
    + revert Hin. apply plain_not_elem; [done|]. by intros (_ & _ & _ & ?).
Qed.

Lemma load_step_line (codes : gmap ascii str) (reverse_mapping : gmap str ascii)
    (beyond : bool) (c : ascii) (code : str) :
  Forall is_bit code →
  load_step (codes, reverse_mapping, beyond) (code_line (c, code))
  = Ok (<[c := code]> codes, <[code := c]> reverse_mapping, beyond).
Proof.
  intros Hcode.
  destruct (ordinal_round_trip c) as (n & Hint & Hchr & Hd & Hne).
  destruct (code_line_plain c code Hcode) as [Hdp Hcp].
  assert (strip (code_line (c, code)) = str_of_nat (ord c) ++ ","%char :: code)
    as Hstrip.
  { unfold code_line. cbn [fst snd].
    destruct (str_of_nat (ord c)) as [|x d] eqn:Hdigits; [done|].
    apply Forall_cons in Hdp as [(Hx & _) Hdp].
    destruct code as [|y code _] using rev_ind.
    - replace ((x :: d) ++ py "," ++ [] ++ ["010"%char])
        with (x :: d ++ [","%char; "010"%char]) by done.
      by rewrite strip_line.
    - apply Forall_app in Hcp as [_ Hy]. apply Forall_singleton in Hy as (Hy & _).
      replace ((x :: d) ++ py "," ++ (code ++ [y]) ++ ["010"%char])
        with (x :: (d ++ ","%char :: code) ++ [y; "010"%char])
        by (cbn [py list_ascii_of_string]; by rewrite <- !app_comm_cons, <- !app_assoc).
      rewrite strip_line by done.
      by rewrite <- !app_comm_cons, <- !app_assoc. }
  unfold load_step. rewrite Hstrip.
  destruct (str_of_nat (ord c) ++ ","%char :: code) as [|x line] eqn:Hline.
  { by destruct (str_of_nat (ord c)). }
  rewrite <- Hline. rewrite split_on_once.
  - rewrite Hint. cbn [mbind result_bind]. rewrite Hchr. done.
  - apply plain_not_elem; [done|]. by intros (_ & ? & _).
  - apply plain_not_elem; [done|]. by intros (_ & ? & _).
Qed.

Lemma load_loop (items : list (ascii * str)) (self : HuffmanCoding) (beyond : bool) :
  Forall (λ e, Forall is_bit e.2) items →
  for_ (code_line <$> items) load_step (codes self, reverse_mapping self, beyond)
  = Ok (codes (foldl assign self items),
        reverse_mapping (foldl assign self items), beyond).
Proof.
  intros Hitems. revert self.
  induction Hitems as [|[c code] items Hcode _ IH]; intros self; [done|].
  rewrite fmap_cons, for_cons, load_step_line by done.
  cbn [mbind result_bind foldl]. apply (IH (assign self (c, code))).
Qed.

(** Loading what [save_huffman_codes] wrote gives the dictionary back,
    together with its inverse, for every table of distinct binary codes
    and whatever the order of its entries. *)
Theorem codes_file_round_trip (items : list (ascii * str)) :
  NoDup items.*1 → NoDup items.*2 → Forall (λ e, Forall is_bit e.2) items →
  load_huffman_codes (save_huffman_codes items)
  = Some (list_to_map items, list_to_map (prod_swap <$> items)).
Proof.
  intros Hkeys Hcodes Hbits. unfold load_huffman_codes.
  rewrite save_huffman_codes_lines, file_lines_save by done.
  change (∅, ∅, false) with
    (codes HuffmanCoding_init, reverse_mapping HuffmanCoding_init, false).
  rewrite (load_loop items HuffmanCoding_init false Hbits), foldl_assign.
  cbn [codes reverse_mapping HuffmanCoding_init].
  rewrite !(right_id_L ∅ (∪)). do 2 f_equal.
  - apply list_to_map_proper; [|apply reverse_Permutation].
    by rewrite fmap_reverse, reverse_Permutation.
  - rewrite fmap_reverse. apply list_to_map_proper; [|apply reverse_Permutation].
    rewrite fmap_reverse, reverse_Permutation, <- list_fmap_compose. done.
Qed.

Lemma codes_file_round_trip_witness :
  NoDup [("a"%char, py "0"); ("010"%char, py "10"); (","%char, py "11")].*1
  ∧ NoDup [("a"%char, py "0"); ("010"%char, py "10"); (","%char, py "11")].*2
  ∧ Forall (λ e, Forall is_bit e.2)
      [("a"%char, py "0"); ("010"%char, py "10"); (","%char, py "11")]
  ∧ load_huffman_codes
      (save_huffman_codes
         [("a"%char, py "0"); ("010"%char, py "10"); (","%char, py "11")])
    = Some (list_to_map
              [("a"%char, py "0"); ("010"%char, py "10"); (","%char, py "11")],
            list_to_map
              (prod_swap
                 <$> [("a"%char, py "0"); ("010"%char, py "10"); (","%char, py "11")])).
Proof.
  assert (NoDup [("a"%char, py "0"); ("010"%char, py "10"); (","%char, py "11")].*1)
    as H1 by (apply (bool_decide_unpack _); vm_compute; exact I).
  assert (NoDup [("a"%char, py "0"); ("010"%char, py "10"); (","%char, py "11")].*2)
    as H2 by (apply (bool_decide_unpack _); vm_compute; exact I).
  assert (Forall (λ e, Forall is_bit e.2)
            [("a"%char, py "0"); ("010"%char, py "10"); (","%char, py "11")])
    as H3 by (apply (bool_decide_unpack _); vm_compute; exact I).
  split_and!; [exact H1|exact H2|exact H3|].
  exact (codes_file_round_trip _ H1 H2 H3).
Defined.

(** The table of a tree, written out in any order of its entries and
    loaded again. *)
Lemma load_saved_table (root : HuffmanNode) (items : list (ascii * str)) :
  proper root → NoDup (symbols root) → items ≡ₚ map_to_list (code_table root) →
  load_huffman_codes (save_huffman_codes items)
  = Some (code_table root, decode_table root).
Proof.
  intros Hproper Hnodup Hitems.
  pose proof (assignments_NoDup_1 root Hnodup) as Hkeys.
  pose proof (assignments_NoDup_2 root Hproper) as Hcodes.
  assert (items ≡ₚ assignments root []) as Hperm.
  { rewrite Hitems. unfold code_table. by apply map_to_list_to_map. }
  rewrite <- list_fmap_compose in Hcodes.
  assert (Forall (λ e, Forall is_bit e.2) items) as Hbits.
  { rewrite Hperm. apply Forall_forall. intros [c p] Hin. cbn [snd].
    apply (code_table_codes root Hproper Hnodup c p).
    by apply code_table_lookup. }
  unfold load_huffman_codes.
  rewrite save_huffman_codes_lines, file_lines_save by done.
  change (∅, ∅, false) with
    (codes HuffmanCoding_init, reverse_mapping HuffmanCoding_init, false).
  rewrite (load_loop items HuffmanCoding_init false Hbits), foldl_assign.
  cbn [codes reverse_mapping HuffmanCoding_init].
  rewrite !(right_id_L ∅ (∪)). do 2 f_equal.
  - unfold code_table. apply list_to_map_proper; [|by rewrite reverse_Permutation].
    by rewrite fmap_reverse, reverse_Permutation, Hperm.
  - unfold decode_table. rewrite fmap_reverse.
    apply list_to_map_proper; [|by rewrite reverse_Permutation, Hperm].
    rewrite fmap_reverse, reverse_Permutation, <- list_fmap_compose.
    by rewrite Hperm.
Qed.

Lemma for_app {A S} (l1 l2 : list A) (body : S → A → result S) (s : S) :
  for_ (l1 ++ l2) body s = (s' ← for_ l1 body s; for_ l2 body s').
Proof.
  revert s. induction l1 as [|x l1 IH]; intros s; simpl; [done|].
  destruct (body s x); simpl; auto.
Qed.

(** A file with a line that, blanks stripped, is not empty and does not
    split at commas into exactly two fields loads as two empty
    dictionaries: nothing of the other lines is kept. *)
Theorem load_malformed (content line : str) :
  line ∈ file_lines content → strip line ≠ [] →
  length (split_on ","%char (strip line)) ≠ 2 →
  load_huffman_codes content = Some (∅, ∅).
Proof.
  intros [l1 [l2 Hsplit]]%list_elem_of_split Hne Hfields.
  unfold load_huffman_codes. rewrite Hsplit, for_app.
  destruct (for_ l1 load_step (∅, ∅, false)) as [[[codes rm] beyond]| |];
    cbn [mbind result_bind]; [|done..].
  rewrite for_cons.
  assert (∃ e, load_step (codes, rm, beyond) line = Raise e) as [e ->].
  { unfold load_step. destruct (strip line) as [|x rest]; [done|].
    destruct (split_on ","%char (x :: rest)) as [|a [|b [|c l]]]; eauto.
    by destruct Hfields. }
  done.
Qed.

(** A file of two lines, the second without a comma. *)
Definition sample_codes_file : str :=
  py "97,0" ++ ["010"%char] ++ py "no comma here".

Lemma load_malformed_witness :
  py "no comma here" ∈ file_lines sample_codes_file
  ∧ strip (py "no comma here") ≠ []
  ∧ length (split_on ","%char (strip (py "no comma here"))) ≠ 2
  ∧ load_huffman_codes sample_codes_file = Some (∅, ∅).
Proof.
  assert (py "no comma here" ∈ file_lines sample_codes_file) as H1
    by (vm_compute; right; left).
  assert (strip (py "no comma here") ≠ []) as H2 by (vm_compute; discriminate).
  assert (length (split_on ","%char (strip (py "no comma here"))) ≠ 2) as H3
    by (vm_compute; discriminate).
  split_and!; [exact H1|exact H2|exact H3|].
  exact (load_malformed _ _ H1 H2 H3).
Defined.

(** ** From file to file

    [compress_file] hands the bytes and the table of [compress] to the two
    save functions; [decompress_file] loads both, puts the loaded
    dictionaries into a new instance and calls [decompress]. *)

(** The data that [compress_file] hands to the two files is enough for
    [decompress_file]: the table that [compress] returns is not empty;
    written by [save_huffman_codes] in any order of its entries and
    loaded again it comes back as it was, with the reverse mapping the
    compressing instance holds; and a new instance given the two loaded
    dictionaries decompresses the bytes to the text. *)
Theorem file_round_trip (text : str) :
  text ≠ [] →
  ∃ byte_array table self,
    compress HuffmanCoding_init text = Ok (byte_array, table, self)
    ∧ table ≠ ∅
    ∧ ∀ items, items ≡ₚ map_to_list table →
        load_huffman_codes (save_huffman_codes items)
        = Some (table, reverse_mapping self)
        ∧ decompress
            {| heap := []; codes := table;
               reverse_mapping := reverse_mapping self |}
            byte_array
          = Ok text.
Proof.
  intros Hne.
  destruct (compress_spec HuffmanCoding_init text)
    as (root & byte_array & _ & Hproper & Hnodup & Hin & Hcompress & _ & Hbits & _);
    [done..|].
  exists byte_array, (codes (coded HuffmanCoding_init root)),
    (coded HuffmanCoding_init root).
  split; [done|].
  cbn [codes reverse_mapping coded HuffmanCoding_init].
  rewrite !(right_id_L ∅ (∪)). split.
  - destruct text as [|c text]; [done|]. intros Hempty.
    destruct (proj2 (code_table_dom root Hnodup c)) as [p Hp];
      [apply Hin; by left|].
    by rewrite Hempty, lookup_empty in Hp.
  - intros items Hitems. split; [by apply load_saved_table|].
    apply (decompress_spec _ root); try done. intros c. apply Hin.
Qed.

Lemma file_round_trip_witness :
  py "hello world" ≠ []
  ∧ ∃ byte_array table self,
      compress HuffmanCoding_init (py "hello world") = Ok (byte_array, table, self)
      ∧ table ≠ ∅
      ∧ ∀ items, items ≡ₚ map_to_list table →
          load_huffman_codes (save_huffman_codes items)
          = Some (table, reverse_mapping self)
          ∧ decompress
              {| heap := []; codes := table;
                 reverse_mapping := reverse_mapping self |}
              byte_array
            = Ok (py "hello world").
Proof.
  assert (py "hello world" ≠ []) as Hne by discriminate.
  split; [exact Hne|]. exact (file_round_trip (py "hello world") Hne).
Defined.

(** ** An instance between calls *)

(** On any instance whose heap is empty, whatever its dictionaries hold,
    [compress] of a non-empty text succeeds and leaves the heap empty
    again; the bytes and the codes of the symbols of the text are those
    a fresh instance gives, and entries of other symbols stay as they
    were. *)
Theorem compress_reusable (self : HuffmanCoding) (text : str) :
  heap self = [] → text ≠ [] →
  ∃ byte_array table self' fresh_table fresh_self,
    compress self text = Ok (byte_array, table, self')
    ∧ compress HuffmanCoding_init text = Ok (byte_array, fresh_table, fresh_self)
    ∧ heap self' = [] ∧ codes self' = table
    ∧ (∀ c, c ∈ text → table !! c = fresh_table !! c)
    ∧ (∀ c, c ∉ text → table !! c = codes self !! c).
Proof.
  intros Hheap Hne.
  destruct (compress_spec HuffmanCoding_init text)
    as (root & byte_array & Hforest & Hproper & Hnodup & Hin & Hcompress & Hbytes & _);
    [done..|].
  exists byte_array, (codes (coded self root)), (coded self root),
    (codes (coded HuffmanCoding_init root)), (coded HuffmanCoding_init root).
  split_and!; [by apply compress_again|done|done|done|..];
    cbn [codes coded HuffmanCoding_init]; rewrite ?(right_id_L ∅ (∪)); intros c Hc.
  - apply lookup_union_l', code_table_dom; [done|]. by apply Hin.
  - apply lookup_union_r, eq_None_not_Some.
    rewrite code_table_dom by done. by rewrite Hin.
Qed.

Lemma compress_reusable_witness :
  heap sample_coding = [] ∧ py "abca" ≠ []
  ∧ ∃ byte_array table self' fresh_table fresh_self,
      compress sample_coding (py "abca") = Ok (byte_array, table, self')
      ∧ compress HuffmanCoding_init (py "abca")
        = Ok (byte_array, fresh_table, fresh_self)
      ∧ heap self' = [] ∧ codes self' = table
      ∧ (∀ c, c ∈ py "abca" → table !! c = fresh_table !! c)
      ∧ (∀ c, c ∉ py "abca" → table !! c = codes sample_coding !! c).
Proof.
  assert (heap sample_coding = []) as H1 by reflexivity.
  assert (py "abca" ≠ []) as H2 by discriminate.
  split; [exact H1|]. split; [exact H2|].
  exact (compress_reusable sample_coding (py "abca") H1 H2).
Defined.

(** ** [make_codes] *)

(** [make_codes] does nothing on an empty heap.  On a heap that holds one
    tree it empties the heap and writes one code per leaf into both
    dictionaries, each the inverse of the other on these entries;
    entries of [codes] for other symbols stay as they were. *)
Theorem make_codes_spec (self : HuffmanCoding) :
  (heap self = [] → make_codes self = Ok self)
  ∧ (∀ root, heap self = [root] → proper root → NoDup (symbols root) →
     ∃ self',
       make_codes self = Ok self' ∧ heap self' = []
       ∧ (∀ c, c ∈ symbols root →
            ∃ p, codes self' !! c = Some p ∧ reverse_mapping self' !! p = Some c)
       ∧ (∀ c, c ∉ symbols root → codes self' !! c = codes self !! c)).
Proof.
  split.
  - intros Hheap. unfold make_codes. by rewrite Hheap.
  - intros root Hheap Hproper Hnodup.
    assert (self = set_heap self [root]) as ->
      by (destruct self; simpl in *; by subst).
    rewrite (make_codes_tree root Hproper Hnodup).
    eexists. split_and!; [done..| |]; cbn [codes reverse_mapping set_heap]; intros c Hc.
    + destruct (proj2 (code_table_dom root Hnodup c) Hc) as [p Hp].
      exists p. split; apply lookup_union_Some_l; [done|].
      by apply (code_table_inverse root Hproper Hnodup).
    + apply lookup_union_r, eq_None_not_Some. by rewrite code_table_dom.
Qed.

(** A tree of two leaves, and an instance whose heap holds it. *)
Definition sample_tree : HuffmanNode :=
  merged (leaf_of ("a"%char, 1)) (leaf_of ("b"%char, 2)).

Definition sample_treed : HuffmanCoding := set_heap sample_coding [sample_tree].

Lemma make_codes_spec_witness :
  heap HuffmanCoding_init = []
  ∧ heap sample_treed = [sample_tree]
  ∧ proper sample_tree
  ∧ NoDup (symbols sample_tree)
  ∧ make_codes HuffmanCoding_init = Ok HuffmanCoding_init
  ∧ ∃ self',
      make_codes sample_treed = Ok self' ∧ heap self' = []
      ∧ (∀ c, c ∈ symbols sample_tree →
           ∃ p, codes self' !! c = Some p ∧ reverse_mapping self' !! p = Some c)
      ∧ (∀ c, c ∉ symbols sample_tree →
           codes self' !! c = codes sample_treed !! c).
Proof.
  assert (heap HuffmanCoding_init = []) as H0 by reflexivity.
  assert (heap sample_treed = [sample_tree]) as H1 by reflexivity.
  assert (proper sample_tree) as H2 by (repeat constructor).
  assert (NoDup (symbols sample_tree))
    as H3 by (apply (bool_decide_unpack _); vm_compute; exact I).
  split_and!; [exact H0|exact H1|exact H2|exact H3|..].
  - exact (proj1 (make_codes_spec HuffmanCoding_init) H0).
  - exact (proj2 (make_codes_spec sample_treed) sample_tree H1 H2 H3).
Defined.
